(** * The metrics engine of romusha: label parser, exposition parser,
    tag counter and incident clustering

    A shallow embedding of [src/nusacontact-exporter.ts] and
    [src/gamas-exporter.ts], and the properties of their parsing and
    aggregation core.

    Modelling conventions.
    - A JavaScript string is a [string]: a sequence of characters, each an
      [ascii], read as the code points U+0000 to U+00FF.
    - A JavaScript object used as a dictionary ([Labels], [Result],
      [queueCount]) is the [gmap] of its own properties.  It is an object
      literal, so it inherits the members of [Object.prototype]: a key that
      names one of them reads as that member while the object has no own
      property of the name, and a write under [__proto__] stores nothing
      (module [JsObject]).
    - A thrown [Error] or [TypeError] is a value of [ParseError]; a function
      that may throw returns a [completion].
    - A number produced by [parseFloat] is a [JsNumber]: the exact decimal
      that was read, before rounding to a double.
    - An ISO timestamp is the integer [new Date(s).getTime()] gives for it:
      milliseconds since the epoch, in [Z].  An [Incident] is an incident
      whose start time parses: one whose start time does not parse never
      passes the age check of [groupIncidents].  Where such a time can
      reach a comparator ([Alert], [RawIncident], [OrderedTicket],
      [OrderedEngineer]) it is a [JsInt], which has [NaN].
    - [Array.prototype.sort] is a stable insertion sort: for a comparator
      that is consistent on the elements sorted, that is the order the
      language defines.  For any other comparator the language leaves the
      order to the implementation: what is proved of an order is proved
      for comparators that are consistent on the elements.
    - The local-time getters of [Date] depend on the time zone of the
      process; they are parameters of the functions that call them. *)

From Stdlib Require Import ZArith Ascii String Decimal DecimalString DecimalN.
From stdpp Require Import gmap strings list sorting.

Local Open Scope Z_scope.

(** ** Errors and the result monad *)

(** What the parsers throw: the three [throw new Error(...)] of
    [parseAttributes], by message, and the [TypeError] the host raises when
    [parseMetricLines] calls [push] on a value that has no such method. *)
Inductive ParseError : Type :=
  | UnexpectedEquals        (* 'Unexpected "=" without attribute name' *)
  | SpaceInAttributeName    (* 'Space in attribute name' *)
  | InputEndedUnexpectedly  (* 'Input ended unexpectedly' *)
  | PushIsNotAFunction.     (* TypeError: result[metricName].push is not a
                               function *)

(** How a call completes: it returns a value or throws. *)
Inductive completion (A : Type) : Type :=
  | Ok (a : A)
  | Throw (e : ParseError).
Arguments Ok {A} a.
Arguments Throw {A} e.

Definition bind {A B : Type} (r : completion A) (k : A → completion B)
  : completion B :=
  match r with
  | Ok a => k a
  | Throw e => Throw e
  end.

Notation "'do' x <- r ; k" := (bind r (fun x => k))
  (at level 10, x name, r at level 100, k at level 200).

Definition completion_map {A B : Type} (f : A → B) (r : completion A)
  : completion B :=
  do a <- r; Ok (f a).

(** A loop whose body may throw: [for (const x of xs) { s = body s x }]. *)
Fixpoint for_of {S X : Type} (body : S → X → completion S) (xs : list X) (s : S)
  : completion S :=
  match xs with
  | [] => Ok s
  | x :: xs' => do s' <- body s x; for_of body xs' s'
  end.

(** ** Characters *)

Definition dquote : ascii := "034"%char.
Definition squote : ascii := "039"%char.
Definition space : ascii := " "%char.
Definition comma : ascii := ","%char.
Definition equals : ascii := "="%char.
Definition lbrace : ascii := "{"%char.
Definition rbrace : ascii := "}"%char.
Definition newline : ascii := "010"%char.

Definition chars : string → list ascii := list_ascii_of_string.
(** [buf.join('')] for a buffer of one-character strings. *)
Definition join_chars : list ascii → string := string_of_list_ascii.

(** ** Object literals used as dictionaries *)

Module JsObject.

(** The names of the members of [Object.prototype].  An object literal
    inherits them: while the object has no own property of such a name,
    reading the name gives the inherited member (a function, or the
    prototype itself for [__proto__]), which is truthy. *)
Definition inherited_names : list string :=
  [ "constructor"; "__defineGetter__"; "__defineSetter__"; "hasOwnProperty";
    "__lookupGetter__"; "__lookupSetter__"; "isPrototypeOf";
    "propertyIsEnumerable"; "toString"; "valueOf"; "__proto__";
    "toLocaleString" ].

Definition inherited (key : string) : Prop := key ∈ inherited_names.

Global Instance inherited_dec key : Decision (inherited key).
Proof. unfold inherited. apply _. Defined.

(** [obj[key] = v] for a [v] that is a string or a number: an own property
    is written, except under [__proto__], whose setter ignores a value that
    is neither an object nor [null]. *)
Definition assign {V : Type} (key : string) (v : V) (own : gmap string V)
  : gmap string V :=
  if bool_decide (key = "__proto__") then own else <[key := v]> own.

End JsObject.

Import JsObject.

(** ** The label parser: [parseAttributes] *)

Module LabelParser.

Inductive State : Type :=
  | INITIAL | READING_ATTR | IN_QUOTE | READING_VALUE | AFTER_SEP.

Global Instance State_eq_dec : EqDecision State.
Proof. solve_decision. Defined.

(** The local variables of [parseAttributes].  [committed] is a history
    variable that is not in the source: the pairs [commitAttribute] has
    stored so far, oldest first. *)
Record Vars : Type := mkVars {
  attrs : gmap string string;
  state : State;
  quote : ascii;
  attrBuf : list ascii;
  valBuf : list ascii;
  committed : list (string * string);
}.

Definition init : Vars :=
  {| attrs := ∅; state := INITIAL; quote := dquote;
     attrBuf := []; valBuf := []; committed := [] |}.

Definition commitAttribute (v : Vars) : Vars :=
  let attrName := join_chars (attrBuf v) in
  let attrValue := join_chars (valBuf v) in
  {| attrs := assign attrName attrValue (attrs v);
     state := INITIAL;
     quote := quote v;
     attrBuf := [];
     valBuf := [];
     committed := committed v ++ [(attrName, attrValue)] |}.

Definition set_state (s : State) (v : Vars) : Vars :=
  {| attrs := attrs v; state := s; quote := quote v;
     attrBuf := attrBuf v; valBuf := valBuf v; committed := committed v |}.
Definition set_quote (c : ascii) (v : Vars) : Vars :=
  {| attrs := attrs v; state := state v; quote := c;
     attrBuf := attrBuf v; valBuf := valBuf v; committed := committed v |}.
Definition push_attr (c : ascii) (v : Vars) : Vars :=
  {| attrs := attrs v; state := state v; quote := quote v;
     attrBuf := attrBuf v ++ [c]; valBuf := valBuf v; committed := committed v |}.
Definition push_val (c : ascii) (v : Vars) : Vars :=
  {| attrs := attrs v; state := state v; quote := quote v;
     attrBuf := attrBuf v; valBuf := valBuf v ++ [c]; committed := committed v |}.

(** The body of [for (const char of input) switch (state) ...]. *)
Definition step (v : Vars) (char : ascii) : completion Vars :=
  match state v with
  | INITIAL =>
      if bool_decide (char = space ∨ char = comma) then Ok v
      else if bool_decide (char = equals) then Throw UnexpectedEquals
      else Ok (push_attr char (set_state READING_ATTR v))
  | READING_ATTR =>
      if bool_decide (char = equals) then Ok (set_state AFTER_SEP v)
      else if bool_decide (char = space) then Throw SpaceInAttributeName
      else Ok (push_attr char v)
  | AFTER_SEP =>
      if bool_decide (char = dquote ∨ char = squote)
      then Ok (set_quote char (set_state IN_QUOTE v))
      else if bool_decide (char ≠ space)
      then Ok (push_val char (set_state READING_VALUE v))
      else Ok v
  | READING_VALUE =>
      if bool_decide (char = space ∨ char = comma) then Ok (commitAttribute v)
      else Ok (push_val char v)
  | IN_QUOTE =>
      if bool_decide (char = quote v) then Ok (commitAttribute v)
      else Ok (push_val char v)
  end.

(** The variables when the [for] loop has consumed the whole input. *)
Definition scan (input : string) : completion Vars :=
  for_of step (chars input) init.

(** The code after the loop. *)
Definition finish (v : Vars) : completion Vars :=
  if bool_decide (state v = READING_VALUE) then Ok (commitAttribute v)
  else if bool_decide (state v ≠ INITIAL ∧ state v ≠ IN_QUOTE)
  then Throw InputEndedUnexpectedly
  else Ok v.

(** The variables at [return attrs]. *)
Definition run (input : string) : completion Vars :=
  do v <- scan input; finish v.

Definition parseAttributes (input : string) : completion (gmap string string) :=
  completion_map attrs (run input).

(** The pairs committed while parsing [input], oldest first; empty when the
    parser throws. *)
Definition commit_log (input : string) : list (string * string) :=
  match run input with
  | Ok v => committed v
  | Throw _ => []
  end.

(** The value of the last pair of [log] named [name]. *)
Definition last_write {V : Type} (name : string) (log : list (string * V))
  : option V :=
  snd <$> last (filter (λ kv, kv.1 = name) log).

(** What [attrs] holds after the pairs of [committed]: for each name but
    [__proto__], the value of the last pair of that name; nothing under
    [__proto__]. *)
Definition attrs_follow_log (v : Vars) : Prop :=
  ∀ name, attrs v !! name
          = if bool_decide (name = "__proto__") then None
            else last_write name (committed v).

(** The fragment that opens a quote and never closes it. *)
Definition unterminated : string := "a=" +:+ String dquote "unterminated".

(** The fragment that commits one pair under the name [__proto__]. *)
Definition proto_fragment : string := "__proto__=1".

End LabelParser.

Import LabelParser.

(** ** String primitives of the host language *)

Module JsString.

(** [WhiteSpace] and [LineTerminator] code points below U+0100: what
    [String.prototype.trim] removes and [parseFloat] skips. *)
Definition is_white_space (c : ascii) : bool :=
  match c with
  | "009" | "010" | "011" | "012" | "013" | " " | "160" => true
  | _ => false
  end%char.

Fixpoint trimStart (s : string) : string :=
  match s with
  | "" => ""
  | String c s' => if is_white_space c then trimStart s' else s
  end.

Fixpoint trimEnd (s : string) : string :=
  match s with
  | "" => ""
  | String c s' =>
      match trimEnd s' with
      | "" => if is_white_space c then "" else String c ""
      | t => String c t
      end
  end.

Definition trim (s : string) : string := trimEnd (trimStart s).

(** [s.split(sep)] for a one-character separator. *)
Fixpoint split (sep : ascii) (s : string) : list string :=
  match s with
  | "" => [""]
  | String c s' =>
      if bool_decide (c = sep) then "" :: split sep s'
      else match split sep s' with
           | [] => [String c ""]
           | piece :: pieces => String c piece :: pieces
           end
  end.

(** [s.indexOf(c)] for a one-character string: the first position of [c],
    or -1. *)
Fixpoint indexOf (c : ascii) (s : string) : Z :=
  match s with
  | "" => -1
  | String a s' =>
      if bool_decide (a = c) then 0
      else let i := indexOf c s' in if bool_decide (i < 0) then -1 else i + 1
  end.

(** An index argument of [substring], brought into [0 .. s.length]. *)
Definition clamp (i : Z) (s : string) : nat :=
  Z.to_nat (Z.min (Z.max i 0) (Z.of_nat (String.length s))).

(** [s.substring(start, end)]: both indices are clamped, and swapped when
    [start] is the larger. *)
Definition substring (start end_ : Z) (s : string) : string :=
  let a := clamp start s in
  let b := clamp end_ s in
  String.substring (a `min` b) ((a `max` b) - (a `min` b)) s.

(** [s.substring(start)]. *)
Definition substring_from (start : Z) (s : string) : string :=
  substring start (Z.of_nat (String.length s)) s.

Definition startsWith (p s : string) : bool := String.prefix p s.

(** [s.includes(t)]: [t] occurs in [s]. *)
Definition includes (t s : string) : bool :=
  match String.index 0 t s with
  | Some _ => true
  | None => false
  end.

(** [lines.join(sep)]. *)
Definition join (sep : string) (pieces : list string) : string :=
  String.concat sep pieces.

End JsString.

(** ** Numbers read by [parseFloat] *)

Module JsNumber.

(** [Finite neg m e] is the decimal [(-1)^neg * m * 10^e]. *)
Inductive JsNumber : Type :=
  | NaN
  | Infinity (negative : bool)
  | Finite (negative : bool) (mantissa : N) (exponent : Z).

Global Instance JsNumber_eq_dec : EqDecision JsNumber.
Proof. solve_decision. Defined.

Definition digit_of (c : ascii) : option (uint → uint) :=
  match c with
  | "0" => Some D0 | "1" => Some D1 | "2" => Some D2 | "3" => Some D3
  | "4" => Some D4 | "5" => Some D5 | "6" => Some D6 | "7" => Some D7
  | "8" => Some D8 | "9" => Some D9
  | _ => None
  end%char.

(** The longest run of decimal digits [s] starts with, and what follows. *)
Fixpoint scan_digits (s : string) : uint * string :=
  match s with
  | "" => (Nil, "")
  | String c s' =>
      match digit_of c with
      | Some d => let '(u, rest) := scan_digits s' in (d u, rest)
      | None => (Nil, s)
      end
  end.

Definition scan_sign (s : string) : bool * string :=
  match s with
  | String "-" s' => (true, s')
  | String "+" s' => (false, s')
  | _ => (false, s)
  end.

(** The value of an [ExponentPart] at the head of [s]; 0 when there is
    none. *)
Definition scan_exponent (s : string) : Z :=
  match s with
  | String c s' =>
      if bool_decide (c = "e"%char ∨ c = "E"%char) then
        let '(neg, s'') := scan_sign s' in
        match scan_digits s'' with
        | (Nil, _) => 0
        | (u, _) => let e := Z.of_N (N.of_uint u) in if neg then - e else e
        end
      else 0
  | "" => 0
  end.

(** [parseFloat(s)]: leading white space is skipped, then the longest
    prefix that is a [StrDecimalLiteral] is read; [NaN] when there is none. *)
Definition parseFloat (s : string) : JsNumber :=
  let '(neg, s1) := scan_sign (JsString.trimStart s) in
  if String.prefix "Infinity" s1 then Infinity neg
  else
    let '(int_part, s2) := scan_digits s1 in
    let '(frac_part, s3) :=
      match s2 with
      | String "." s2' => scan_digits s2'
      | _ => (Nil, s2)
      end in
    match int_part, frac_part with
    | Nil, Nil => NaN
    | _, _ =>
        Finite neg (N.of_uint (Decimal.app int_part frac_part))
               (scan_exponent s3 - Z.of_nat (Decimal.nb_digits frac_part))
    end.

(** A count (a non-negative integer) as a number. *)
Definition of_count (n : N) : JsNumber := Finite false n 0.

(** The text of a count in a template literal: its decimal digits. *)
Definition show_count (n : N) : string := NilEmpty.string_of_uint (N.to_uint n).

(** The integers a double holds exactly. *)
Definition safe_integer (n : N) : Prop := (n < 2 ^ 53)%N.

End JsNumber.

(** ** Integer-valued numbers that can be [NaN] *)

Module JsInt.

(** The time [new Date(x).getTime()] gives, and what is computed from such
    times: an integer, or [NaN] when [x] is no date. *)
Inductive JsInt : Type :=
  | Int (z : Z)
  | NotANumber.

Global Instance JsInt_eq_dec : EqDecision JsInt.
Proof. solve_decision. Defined.

(** [a - b]: [NaN] when either is. *)
Definition minus (a b : JsInt) : JsInt :=
  match a, b with
  | Int x, Int y => Int (x - y)
  | _, _ => NotANumber
  end.

(** [a === b] on numbers: [NaN] equals nothing, itself included. *)
Definition strictEquals (a b : JsInt) : bool :=
  match a, b with
  | Int x, Int y => bool_decide (x = y)
  | _, _ => false
  end.

(** What [sort] makes of the value its comparator returns: [NaN] counts
    as 0. *)
Definition sortCompare (v : JsInt) : Z :=
  match v with
  | Int z => z
  | NotANumber => 0
  end.

End JsInt.

Import JsString JsNumber JsInt.

(** ** The exposition parser: [parseMetricLines] *)

Record Metric : Type := mkMetric {
  labels : gmap string string;
  value : JsNumber;
}.

Abbreviation Labels := (gmap string string).
Abbreviation Result := (gmap string (list Metric)).

(** [result] once [metric] is pushed to the array of [metricName]. *)
Definition pushed (metricName : string) (metric : Metric) (result : Result)
  : Result :=
  <[metricName := default [] (result !! metricName) ++ [metric]]> result.

(** [if (!result[name]) result[name] = []; result[name].push(metric)].
    When [result] has an own array of the name, the metric is pushed to it.
    When it has none, [result[name]] is [undefined] for a name
    [Object.prototype] does not have, and a new array is stored; for a name
    it has, [result[name]] is the inherited member: it is truthy, no array
    is stored, and the member has no [push], so the call throws. *)
Definition push_metric (metricName : string) (metric : Metric) (result : Result)
  : completion Result :=
  match result !! metricName with
  | Some metrics => Ok (<[metricName := metrics ++ [metric]]> result)
  | None =>
      if bool_decide (inherited metricName) then Throw PushIsNotAFunction
      else Ok (<[metricName := [metric]]> result)
  end.

(** The body of [for (const line of lines)]. *)
Definition parseLine (result : Result) (line : string) : completion Result :=
  if startsWith "#" line then Ok result
  else
    let metricNameEnd := indexOf lbrace line in
    let labelsStart := metricNameEnd + 1 in
    let labelsEnd := indexOf rbrace line in
    let valueStart := labelsEnd + 1 in
    let metricName := trim (substring 0 metricNameEnd line) in
    let labelString := trim (substring labelsStart labelsEnd line) in
    let value := parseFloat (trim (substring_from valueStart line)) in
    do labels <- parseAttributes labelString;
    let metric := {| labels := labels; value := value |} in
    push_metric metricName metric result.

Definition parseMetricLines (input : string) : completion Result :=
  let lines := split newline (trim input) in
  for_of parseLine lines ∅.

(** The pieces [parseLine] cuts a line into. *)
Definition metricName_of (line : string) : string :=
  trim (substring 0 (indexOf lbrace line) line).
Definition labelString_of (line : string) : string :=
  trim (substring (indexOf lbrace line + 1) (indexOf rbrace line) line).
Definition valueText_of (line : string) : string :=
  trim (substring_from (indexOf rbrace line + 1) line).

(** Quoting in examples: [q s] is [s] with every [!] replaced by a double
    quote. *)
Definition q (s : string) : string :=
  join (String dquote "") (split "!"%char s).

(** Two sample lines: one without braces, one whose value is not a number. *)
Definition bare_line : string := "foo 3.5".
Definition non_numeric_line : string :=
  "foo{a=" +:+ String dquote ("1" +:+ String dquote "} abc").

(** ** The tag counter and the renderer: [generateNusacontactQueueMetrics] *)

(** A value held by [queueCount]: a count, or, under a key that names a
    member of [Object.prototype], a string: the text of that member
    followed by [ones] characters [1]. *)
Inductive Counter : Type :=
  | Count (n : N)
  | MemberText (ones : nat).

(** [queueCount[tag] = (queueCount[tag] || 0) + 1].  An own count is
    incremented.  An own string is truthy, and [+ 1] appends a [1] to it.
    With no own property, a tag [Object.prototype] does not have reads as
    [undefined] and the count becomes 1; a tag it has reads as the
    inherited member, which is truthy, and [+ 1] makes the string of the
    member followed by [1].  The write stores nothing under [__proto__]. *)
Definition increment (tag : string) (queueCount : gmap string Counter)
  : gmap string Counter :=
  match queueCount !! tag with
  | Some (Count n) => assign tag (Count (n + 1)) queueCount
  | Some (MemberText ones) => assign tag (MemberText (S ones)) queueCount
  | None =>
      if bool_decide (inherited tag)
      then assign tag (MemberText 1) queueCount
      else assign tag (Count 1) queueCount
  end.

Section QueueMetrics.

(** [JSON.parse(nusacontactQueueGroups)] and [nusacontactQueueMetricName],
    from the configuration. *)
Variable tags : list string.
Variable nusacontactQueueMetricName : string.

(** [for (const tag of tags) ...] for one metric [m]. *)
Definition countTags (queueCount : gmap string Counter) (m : Metric)
  : gmap string Counter :=
  foldl (λ queueCount tag,
           match labels m !! "tags" with
           | Some t =>
               if includes tag t then increment tag queueCount else queueCount
           | None => queueCount
           end)
        queueCount tags.

(** [metricsData.filter(...).forEach(...)], from the empty [queueCount]. *)
Definition countQueue (metricsData : list Metric) : gmap string Counter :=
  foldl countTags ∅
        (filter (λ m, labels m !! "type" = Some "enqueued") metricsData).

Definition renderLine (entry : string * N) : string :=
  nusacontactQueueMetricName +:+ "{tag=" +:+ String dquote
    (entry.1 +:+ String dquote ("} " +:+ show_count entry.2)).

(** The text written for the entries of [queueCount]. *)
Definition render (entries : list (string * N)) : string :=
  join (String newline "") (renderLine <$> entries).

(** The samples of the rendered metric in a parse result. *)
Definition samples (result : Result) : list Metric :=
  default [] (result !! trim nusacontactQueueMetricName).

End QueueMetrics.

(** The tag to value mapping a list of samples stands for: each sample that
    has a [tag] label gives one entry. *)
Definition tagCounts (ms : list Metric) : gmap string JsNumber :=
  foldl (λ acc m,
           match labels m !! "tag" with
           | Some t => <[t := value m]> acc
           | None => acc
           end)
        ∅ ms.

(** A tag as the round trip takes it: no double quote, no comma, no white
    space. *)
Definition plain_tag (tag : string) : Prop :=
  Forall (λ c, c ≠ dquote ∧ c ≠ comma ∧ is_white_space c = false) (chars tag).

(** A metric name under which a written line is read back: it holds no
    brace and no line break, its first character that is no white space is
    not [#], and, trimmed, it is not the name of a member of
    [Object.prototype]. *)
Definition metric_name_ok (name : string) : Prop :=
  (lbrace ∉ chars name) ∧ (rbrace ∉ chars name) ∧ (newline ∉ chars name) ∧
  startsWith "#" (trimStart name) = false ∧
  ¬ inherited (trim name).

(** The sample a rendered entry should parse to. *)
Definition sample_of (entry : string * N) : Metric :=
  {| labels := {[ "tag" := entry.1 ]}; value := of_count entry.2 |}.

(** The label fragment of a rendered line. *)
Definition tag_fragment (tag : string) : string :=
  "tag=" +:+ String dquote (tag +:+ String dquote "").

(** Two counter mappings: one whose tag contains [}], one with plain tags. *)
Definition braced_counts : gmap string N := {[ "a}b" := 3%N ]}.
Definition queue_counts : gmap string N :=
  <[ "billing" := 3%N ]> {[ "sales" := 12%N ]}.

(** ** Incident clustering: [groupIncidents] *)

Record Incident : Type := mkIncident {
  startsAt : Z;
  host : string;
  link : string;
  region : string;
}.

Record IncidentGroup : Type := mkIncidentGroup {
  group_region : string;
  group_link : string;
  hosts : list string;
  count : Z;
  startsAtMin : Z;
  startsAtMax : Z;
}.

Definition isWithinTolerance (date1 date2 toleranceSeconds : Z) : bool :=
  let timeDiff := Z.abs (date1 - date2) in
  bool_decide (timeDiff ≤ toleranceSeconds * 1000).

Section Clustering.

(** [new Date()] at the call, and the two configured periods. *)
Variable now : Z.
Variable gamasMaxIncidentAgeSeconds : Z.
Variable gamasMassIncidentPeriodSeconds : Z.

(** The predicate of [incidentGroups.find]. *)
Definition group_matches (incident : Incident) (g : IncidentGroup) : Prop :=
  group_region g = region incident ∧
  group_link g = link incident ∧
  (isWithinTolerance (startsAtMin g) (startsAt incident)
                     gamasMassIncidentPeriodSeconds
   ∨ isWithinTolerance (startsAtMax g) (startsAt incident)
                       gamasMassIncidentPeriodSeconds).

Global Instance group_matches_dec incident g : Decision (group_matches incident g).
Proof. unfold group_matches. apply _. Defined.

Definition new_group (incident : Incident) : IncidentGroup :=
  {| group_region := region incident;
     group_link := link incident;
     hosts := [host incident];
     count := 1;
     startsAtMin := startsAt incident;
     startsAtMax := startsAt incident |}.

Definition add_to_group (incident : Incident) (group : IncidentGroup)
  : IncidentGroup :=
  {| group_region := group_region group;
     group_link := group_link group;
     hosts := hosts group ++ [host incident];
     count := count group + 1;
     startsAtMin := Z.min (startsAtMin group) (startsAt incident);
     startsAtMax := Z.max (startsAtMax group) (startsAt incident) |}.

(** The body of [for (const incident of incidents)]: [find] returns the first
    matching group, which is then changed in place. *)
Definition groupStep (incidentGroups : list IncidentGroup) (incident : Incident)
  : list IncidentGroup :=
  if negb (isWithinTolerance (startsAt incident) now gamasMaxIncidentAgeSeconds)
  then incidentGroups
  else
    match list_find (group_matches incident) incidentGroups with
    | Some (i, group) =>
        if bool_decide (host incident ∈ hosts group) then incidentGroups
        else <[i := add_to_group incident group]> incidentGroups
    | None => incidentGroups ++ [new_group incident]
    end.

Definition groupIncidents (incidents : list Incident) : list IncidentGroup :=
  foldl groupStep [] incidents.

End Clustering.

(** The span invariant of a group. *)
Definition span_ok (g : IncidentGroup) : Prop := startsAtMin g ≤ startsAtMax g.

(** The example of three incidents of one region and link, at 0 s, 50 s and
    500 s. *)
Definition three_incidents (K_region K_link A B C : string) : list Incident :=
  [ {| startsAt := 0; host := A; link := K_link; region := K_region |};
    {| startsAt := 50 * 1000; host := B; link := K_link; region := K_region |};
    {| startsAt := 500 * 1000; host := C; link := K_link; region := K_region |} ].

(** ** Notions used to state further properties of the label parser *)

(** A fragment made of separators only: spaces and commas. *)
Definition separators_only (fragment : string) : Prop :=
  Forall (λ c, c = space ∨ c = comma) (chars fragment).

(** The characters [READING_ATTR] can have collected: the first is what
    [INITIAL] lets start a name, the others what [READING_ATTR] appends. *)
Definition name_chars_ok (cs : list ascii) : Prop :=
  match cs with
  | [] => False
  | c :: cs' =>
      (c ≠ space ∧ c ≠ comma ∧ c ≠ equals)
      ∧ Forall (λ c, c ≠ equals ∧ c ≠ space) cs'
  end.

Definition label_name_ok (name : string) : Prop := name_chars_ok (chars name).

(** An unquoted value as [AFTER_SEP] and [READING_VALUE] read it: the first
    character is no quote and no space, the others no space and no comma. *)
Definition bare_value_ok (value : string) : Prop :=
  match chars value with
  | [] => False
  | c :: cs' =>
      (c ≠ dquote ∧ c ≠ squote ∧ c ≠ space)
      ∧ Forall (λ c, c ≠ space ∧ c ≠ comma) cs'
  end.

(** What the buffers hold in each state, and what names [attrs] holds. *)
Definition vars_ok (v : Vars) : Prop :=
  match state v with
  | INITIAL => attrBuf v = [] ∧ valBuf v = []
  | READING_ATTR | AFTER_SEP => name_chars_ok (attrBuf v) ∧ valBuf v = []
  | READING_VALUE => name_chars_ok (attrBuf v) ∧ valBuf v ≠ []
  | IN_QUOTE => name_chars_ok (attrBuf v)
  end
  ∧ map_Forall (λ name _, label_name_ok name) (attrs v).

(** [v'] is [v] started from the labels [A] instead of none: the same state
    and buffers, and [A] under the labels of [v]. *)
Definition resumes_from (A : Labels) (v v' : Vars) : Prop :=
  state v' = state v ∧ attrBuf v' = attrBuf v ∧ valBuf v' = valBuf v ∧
  attrs v' = attrs v ∪ A ∧
  (state v = IN_QUOTE → quote v' = quote v).

(** A label as it is written: unquoted ([None]) or between two quote
    characters [Some quoteChar]. *)
Definition written_label (item : option ascii * (string * string)) : string :=
  match item.1 with
  | None => item.2.1 +:+ String equals (item.2.2)
  | Some quoteChar =>
      item.2.1 +:+ String equals
        (String quoteChar (item.2.2 +:+ String quoteChar ""))
  end.

(** When a written label is well formed: a name the parser can read, and a
    value its style can hold. *)
Definition written_ok (item : option ascii * (string * string)) : Prop :=
  label_name_ok (item.2.1) ∧
  match item.1 with
  | None => bare_value_ok (item.2.2)
  | Some quoteChar =>
      (quoteChar = dquote ∨ quoteChar = squote) ∧ quoteChar ∉ chars (item.2.2)
  end.

(** A list of labels, written and joined by commas. *)
Definition written_labels (items : list (option ascii * (string * string)))
  : string :=
  join "," (written_label <$> items).

(** The labels a sequence of commits leaves: each pair assigned in turn. *)
Definition labels_of (pairs : list (string * string)) : Labels :=
  foldl (λ acc pair, assign pair.1 pair.2 acc) ∅ pairs.

(** The variables after the fragment [a='1' ,a=2,]. *)
Definition after_two_labels : Vars :=
  {| attrs := {[ "a" := "2" ]}; state := INITIAL; quote := squote;
     attrBuf := []; valBuf := []; committed := [("a", "1"); ("a", "2")] |}.

(** ** Notions used to state further properties of the exposition parser
    and of the counter *)

(** A line [parseLine] passes without throwing: a comment, or a line whose
    label fragment parses and whose metric name [Object.prototype] does not
    have. *)
Definition line_parses (line : string) : Prop :=
  startsWith "#" line = true ∨
  ((∃ labels, parseAttributes (labelString_of line) = Ok labels) ∧
   ¬ inherited (metricName_of line)).

(** A line at which [parseLine] throws [e], in a result none of whose names
    [Object.prototype] has: a line that is no comment and whose label
    fragment is refused with [e], or whose label fragment parses while its
    metric name is one [Object.prototype] has. *)
Definition line_throws (line : string) (e : ParseError) : Prop :=
  startsWith "#" line = false ∧
  (parseAttributes (labelString_of line) = Throw e ∨
   ((∃ labels, parseAttributes (labelString_of line) = Ok labels) ∧
    inherited (metricName_of line) ∧ e = PushIsNotAFunction)).

(** The sample a line without braces and without a number gives. *)
Definition blank_sample : Metric := {| labels := ∅; value := NaN |}.

(** The [tags] label of [m] is there and includes [tag]. *)
Definition label_includes (tag : string) (m : Metric) : bool :=
  match labels m !! "tags" with
  | Some t => includes tag t
  | None => false
  end.

(** [m] is counted for [tag]: its [type] is [enqueued] and its [tags] label
    includes [tag]. *)
Definition tag_hit (tag : string) (m : Metric) : bool :=
  bool_decide (labels m !! "type" = Some "enqueued") && label_includes tag m.

(** How often [tag] is listed in the configured tags. *)
Definition listed (tag : string) (tags : list string) : nat :=
  length (filter (λ t, t = tag) tags).

(** ** Incident extraction: [extractAndSortIncidents] *)

Record AlertLabels : Type := mkAlertLabels {
  alert_host : string;
  alert_link : string;
  alert_region : string;
}.

(** An alert as the response has it.  Its [startsAt] is a string, which the
    code only uses through [new Date(startsAt).getTime()]: that time stands
    for it here, [NaN] when the string is no date. *)
Record Alert : Type := mkAlert {
  alert_startsAt : JsInt;
  alert_labels : AlertLabels;
}.

(** An incident as extracted from an alert: its start time may be [NaN]. *)
Record RawIncident : Type := mkRawIncident {
  raw_startsAt : JsInt;
  raw_host : string;
  raw_link : string;
  raw_region : string;
}.

(** The callback of [alerts.map]. *)
Definition toIncident (alert : Alert) : RawIncident :=
  {| raw_startsAt := alert_startsAt alert;
     raw_host := alert_host (alert_labels alert);
     raw_link := alert_link (alert_labels alert);
     raw_region := alert_region (alert_labels alert) |}.

(** [list.sort(compare)]: the sort of the host language is stable, and for
    a comparator that is consistent on the elements of the list its result
    is the one of a stable insertion sort. [x] goes before the first [y]
    that [compare] does not put before it. *)
Fixpoint insert_sorted {A : Type} (compare : A → A → Z) (x : A)
    (sorted : list A) : list A :=
  match sorted with
  | [] => [x]
  | y :: sorted' =>
      if bool_decide (compare x y ≤ 0) then x :: y :: sorted'
      else y :: insert_sorted compare x sorted'
  end.

Definition js_sort {A : Type} (compare : A → A → Z) (l : list A) : list A :=
  foldr (insert_sorted compare) [] l.

(** What the language asks of a comparator for the order of the elements of
    [l] to be defined: swapping the arguments swaps the sign, and
    [compare a b ≤ 0] is transitive, so that the elements fall into classes
    of equals that are totally ordered. *)
Definition consistent_on {A : Type} (compare : A → A → Z) (l : list A) : Prop :=
  (∀ a b, a ∈ l → b ∈ l → compare a b < 0 ↔ 0 < compare b a) ∧
  (∀ a b c, a ∈ l → b ∈ l → c ∈ l →
            compare a b ≤ 0 → compare b c ≤ 0 → compare a c ≤ 0).

(** The comparator of [extractAndSortIncidents]. *)
Definition compareStart (a b : RawIncident) : JsInt :=
  minus (raw_startsAt a) (raw_startsAt b).

Definition extractAndSortIncidents (alerts : list Alert) : list RawIncident :=
  js_sort (λ a b, sortCompare (compareStart a b)) (toIncident <$> alerts).

(** The incident the loop of [groupIncidents] takes up.  An incident whose
    start time is [NaN] fails the age check whatever [now] is
    ([Math.abs(NaN - now) <= tolerance] is false), and the loop skips it
    before anything else is done with it. *)
Definition dated (incident : RawIncident) : option Incident :=
  match raw_startsAt incident with
  | Int t =>
      Some {| startsAt := t; host := raw_host incident;
              link := raw_link incident; region := raw_region incident |}
  | NotANumber => None
  end.

(** ** Notions used to state further properties of the clustering *)

(** Ascending start times. *)
Definition by_start (a b : Incident) : Prop := startsAt a ≤ startsAt b.

(** Ascending start times, for incidents as extracted: both times are
    integers. *)
Definition raw_by_start (a b : RawIncident) : Prop :=
  ∃ x y, raw_startsAt a = Int x ∧ raw_startsAt b = Int y ∧ x ≤ y.

(** The alerts [generateGamasMetrics] takes from a response. *)
Definition first_alerts (data : list (list Alert)) : list Alert :=
  match data with
  | first :: _ => first
  | [] => []
  end.

(** Three alerts of one region and link, at 50 s, 0 s and 500 s. *)
Definition three_alerts : list Alert :=
  [ {| alert_startsAt := Int (50 * 1000);
       alert_labels := {| alert_host := "B"; alert_link := "L";
                          alert_region := "R" |} |};
    {| alert_startsAt := Int 0;
       alert_labels := {| alert_host := "A"; alert_link := "L";
                          alert_region := "R" |} |};
    {| alert_startsAt := Int (500 * 1000);
       alert_labels := {| alert_host := "C"; alert_link := "L";
                          alert_region := "R" |} |} ].

(** What a group's hosts and count are to each other. *)
Definition group_ok (g : IncidentGroup) : Prop :=
  NoDup (hosts g) ∧ count g = Z.of_nat (length (hosts g)) ∧ hosts g ≠ [].

(** [g'] is [g] later in a run: the same region and link, the hosts of [g]
    first, a span at least as wide and a count at least as large. *)
Definition grown_from (g g' : IncidentGroup) : Prop :=
  group_region g' = group_region g ∧ group_link g' = group_link g ∧
  hosts g `prefix_of` hosts g' ∧
  startsAtMin g' ≤ startsAtMin g ∧ startsAtMax g ≤ startsAtMax g' ∧
  count g ≤ count g'.

(** An incident of the region and link of [g]. *)
Definition of_group (g : IncidentGroup) (incident : Incident) : Prop :=
  region incident = group_region g ∧ link incident = group_link g.

(** Every host and both bounds of [g] come from incidents of [incidents]
    that are within the horizon and of the region and link of [g]. *)
Definition backed_by (now maxAge : Z) (incidents : list Incident)
    (g : IncidentGroup) : Prop :=
  (∀ h, h ∈ hosts g →
        ∃ x, x ∈ incidents ∧ of_group g x ∧ host x = h ∧
             isWithinTolerance (startsAt x) now maxAge = true) ∧
  (∃ x, x ∈ incidents ∧ of_group g x ∧ host x ∈ hosts g ∧
        isWithinTolerance (startsAt x) now maxAge = true ∧
        startsAt x = startsAtMin g) ∧
  (∃ x, x ∈ incidents ∧ of_group g x ∧ host x ∈ hosts g ∧
        isWithinTolerance (startsAt x) now maxAge = true ∧
        startsAt x = startsAtMax g).

(** Groups of one region and link lie apart by more than the period, in
    creation order. *)
Definition separated (period : Z) (groups : list IncidentGroup) : Prop :=
  ∀ i j g g',
    (i < j)%nat → groups !! i = Some g → groups !! j = Some g' →
    group_region g = group_region g' → group_link g = group_link g' →
    startsAtMax g + period * 1000 < startsAtMin g'.

(** Some group of region [r] and link [l] lists the host [h]. *)
Definition represented (r l h : string) (groups : list IncidentGroup) : Prop :=
  ∃ g, g ∈ groups ∧ group_region g = r ∧ group_link g = l ∧ h ∈ hosts g.

(** What holds of the groups when every incident so far started at [T] or
    before and the next ones start at [T] or after. *)
Definition sep_inv (period T : Z) (groups : list IncidentGroup) : Prop :=
  Forall span_ok groups ∧
  Forall (λ g, startsAtMax g ≤ T) groups ∧
  separated period groups.

(** The groups [generateGamasMetrics] hands to the formatter: the alerts of
    the first element of the response, if there is one, extracted, sorted
    and grouped; the loop of [groupIncidents] takes up the incidents that
    are [dated]. *)
Definition gamasIncidentGroups (now maxAge period : Z)
    (data : list (list Alert)) : list IncidentGroup :=
  let alerts := match data with
                | first :: _ => first
                | [] => []
                end in
  let incidents := extractAndSortIncidents alerts in
  groupIncidents now maxAge period (omap dated incidents).

(** ** The renderer of the incident groups: [formatPrometheusMetrics] *)

(** [String(n)] and [`${n}`] for an integer. *)
Definition show_int (z : Z) : string :=
  if bool_decide (z < 0) then String "-" (show_count (Z.to_N (- z)))
  else show_count (Z.to_N z).

(** [s.padStart(2, '0')]. *)
Definition padStart2 (s : string) : string :=
  match String.length s with
  | O => "00" +:+ s
  | S O => "0" +:+ s
  | _ => s
  end.

Section Format.

(** From the configuration. *)
Variable gamasMassIncidentCountThreshold : Z.
Variable gamasMetricName : string.

(** The local-time getters of [Date], as functions of the time in
    milliseconds: they depend on the time zone of the process. *)
Variables getFullYear getMonth getDate getHours getMinutes : Z → Z.

(** The datetime as "YYYY-MM-DD HH:mm". *)
Definition formatStartTime (startsAtMin : Z) : string :=
  let year := getFullYear startsAtMin in
  let month := padStart2 (show_int (getMonth startsAtMin + 1)) in
  let day := padStart2 (show_int (getDate startsAtMin)) in
  let hours := padStart2 (show_int (getHours startsAtMin)) in
  let minutes := padStart2 (show_int (getMinutes startsAtMin)) in
  show_int year +:+ "-" +:+ month +:+ "-" +:+ day +:+ " " +:+ hours
    +:+ ":" +:+ minutes.

(** The callback of [.map]: the line of one group. *)
Definition formatGroup (g : IncidentGroup) : string :=
  let startTime := formatStartTime (startsAtMin g) in
  gamasMetricName +:+ "{region=" +:+ String dquote (group_region g +:+
    String dquote (",link=" +:+ String dquote (group_link g +:+
    String dquote (",start=" +:+ String dquote (startTime +:+
    String dquote ("} " +:+ show_int (count g))))))).

Definition formatPrometheusMetrics (groups : list IncidentGroup) : string :=
  let metrics :=
    formatGroup
      <$> filter (λ g, count g > gamasMassIncidentCountThreshold) groups in
  join (String newline "") metrics.

(** The labels of the line of a group, as they are written. *)
Definition group_labels (g : IncidentGroup)
  : list (option ascii * (string * string)) :=
  [ (Some dquote, ("region", group_region g));
    (Some dquote, ("link", group_link g));
    (Some dquote, ("start", formatStartTime (startsAtMin g))) ].

End Format.

(** The text [generateGamasMetrics] writes for a response [data]. *)
Definition gamasMetricsOutput
    (threshold : Z) (metricName : string)
    (getFullYear getMonth getDate getHours getMinutes : Z → Z)
    (now maxAge period : Z) (data : list (list Alert)) : string :=
  formatPrometheusMetrics threshold metricName
    getFullYear getMonth getDate getHours getMinutes
    (gamasIncidentGroups now maxAge period data).

(** A character of the text of a number or of a start time. *)
Definition time_char (c : ascii) : Prop :=
  is_Some (digit_of c) ∨ c = "-"%char ∨ c = ":"%char ∨ c = " "%char.

(** ** The two orderings of [processEngineerTickets] *)

(** An element of [orderedTickets].  [statusPriority] is 1 or a column of
    the joined status table, [null] ([None]) for a ticket without a status
    row; [visitPriority] comes from [getTime()]. *)
Record OrderedTicket : Type := mkOrderedTicket {
  ticketId : Z;
  statusPriority : option Z;
  visitPriority : JsInt;
}.

(** The comparator of [orderedTickets.sort].  [==] holds between [null] and
    [null] and between equal numbers; in a subtraction [null] counts
    as 0. *)
Definition compareTickets (a b : OrderedTicket) : JsInt :=
  if bool_decide (statusPriority a = statusPriority b)
  then minus (visitPriority a) (visitPriority b)
  else Int (default 0 (statusPriority a) - default 0 (statusPriority b)).

(** An element of [orderedEngineers]. *)
Record OrderedEngineer : Type := mkOrderedEngineer {
  employeeId : string;
  idle : bool;
  idleStartTime : JsInt;
  tickets : list string;
}.

(** The comparator of [orderedEngineers.sort]. *)
Definition compareEngineers (a b : OrderedEngineer) : JsInt :=
  if bool_decide (idle a = idle b) then
    if strictEquals (idleStartTime a) (idleStartTime b)
    then Int (Z.of_nat (length (tickets a)) - Z.of_nat (length (tickets b)))
    else minus (idleStartTime a) (idleStartTime b)
  else if idle b then Int 1 else Int (-1).

(** A ticket whose two priorities are numbers, and an engineer whose idle
    time has a start that is a number. *)
Definition ticket_is_numeric (t : OrderedTicket) : Prop :=
  is_Some (statusPriority t) ∧ visitPriority t ≠ NotANumber.

Definition engineer_is_numeric (e : OrderedEngineer) : Prop :=
  idleStartTime e ≠ NotANumber.

(** The orders the two comparators stand for, on numbers. *)
Definition ticket_before (a b : OrderedTicket) : Prop :=
  ∃ pa pb va vb,
    statusPriority a = Some pa ∧ statusPriority b = Some pb ∧
    visitPriority a = Int va ∧ visitPriority b = Int vb ∧
    (pa < pb ∨ (pa = pb ∧ va ≤ vb)).

Definition engineer_before (a b : OrderedEngineer) : Prop :=
  ∃ ta tb,
    idleStartTime a = Int ta ∧ idleStartTime b = Int tb ∧
    ((idle a = true ∧ idle b = false) ∨
     (idle a = idle b ∧
      (ta < tb ∨ (ta = tb ∧ (length (tickets a) ≤ length (tickets b))%nat)))).

(** Three tickets and three engineers. *)
Definition some_tickets : list OrderedTicket :=
  [ {| ticketId := 1; statusPriority := Some 2; visitPriority := Int 10 |};
    {| ticketId := 2; statusPriority := Some 1; visitPriority := Int 30 |};
    {| ticketId := 3; statusPriority := Some 1; visitPriority := Int 20 |} ].

Definition some_engineers : list OrderedEngineer :=
  [ {| employeeId := "a"; idle := false; idleStartTime := Int 5;
       tickets := ["1"] |};
    {| employeeId := "b"; idle := true; idleStartTime := Int 9;
       tickets := [] |};
    {| employeeId := "c"; idle := true; idleStartTime := Int 5;
       tickets := ["2"; "3"] |} ].

(** * Properties *)

(** Refutes the membership of a given element in a given list. *)
Ltac refute_elem :=
  let H := fresh "H" in
  vm_compute; intros H;
  repeat (apply elem_of_cons in H as [H|H]; [done|]);
  by apply elem_of_nil in H.

(** ** The label parser *)

Lemma last_write_nil {V} name : last_write name (@nil (string * V)) = None.
Proof. reflexivity. Qed.

Lemma last_write_snoc {V} name (log : list (string * V)) k x :
  last_write name (log ++ [(k, x)])
  = if decide (k = name) then Some x else last_write name log.
Proof.
  unfold last_write. rewrite filter_app, filter_cons, filter_nil. simpl.
  case_decide.
  - by rewrite last_snoc.
  - by rewrite app_nil_r.
Qed.

Lemma last_write_is_Some {V} name (log : list (string * V)) :
  is_Some (last_write name log) ↔ name ∈ log.*1.
Proof.
  induction log as [|[k x] log IH] using rev_ind.
  - rewrite last_write_nil. simpl. split; [by intros [? ?]|].
    by intros ?%elem_of_nil.
  - rewrite last_write_snoc, fmap_app, elem_of_app. simpl.
    rewrite list_elem_of_singleton. case_decide as Hk.
    + split; [by right|by eauto].
    + rewrite IH. split; [by left|]. by intros [?|?].
Qed.

Lemma lookup_assign {V} key (v : V) own name :
  assign key v own !! name
  = if bool_decide (key = "__proto__") then own !! name
    else if decide (key = name) then Some v else own !! name.
Proof.
  unfold assign. case_bool_decide; [done|].
  rewrite lookup_insert. by case_decide.
Qed.

Lemma commitAttribute_follows v :
  attrs_follow_log v → attrs_follow_log (commitAttribute v).
Proof.
  intros Hv name. unfold commitAttribute. simpl.
  rewrite last_write_snoc, lookup_assign, Hv.
  repeat first [case_bool_decide | case_decide]; congruence.
Qed.

Lemma step_follows v c v' :
  step v c = Ok v' → attrs_follow_log v → attrs_follow_log v'.
Proof.
  unfold step. intros Hstep Hv.
  destruct (state v); repeat case_bool_decide; simplify_eq;
    try done; by apply commitAttribute_follows.
Qed.

Lemma for_of_step_follows cs v v' :
  for_of step cs v = Ok v' → attrs_follow_log v → attrs_follow_log v'.
Proof.
  revert v. induction cs as [|c cs IH]; intros v; simpl.
  - by intros [= ->].
  - destruct (step v c) as [v1|e] eqn:Hstep; simpl; [|done].
    intros Hrest Hv. eapply IH; [done|]. by eapply step_follows.
Qed.

Lemma finish_follows v v' :
  finish v = Ok v' → attrs_follow_log v → attrs_follow_log v'.
Proof.
  unfold finish. intros Hfin Hv.
  repeat case_bool_decide; simplify_eq; try done.
  by apply commitAttribute_follows.
Qed.

Lemma run_follows input v : run input = Ok v → attrs_follow_log v.
Proof.
  unfold run, scan. destruct (for_of _ _ _) as [v1|e] eqn:Hscan; simpl; [|done].
  intros Hfin. eapply finish_follows; [done|].
  eapply for_of_step_follows; [done|]. intros name. simpl.
  rewrite lookup_empty. by case_bool_decide.
Qed.

Lemma parseAttributes_Ok input labels :
  parseAttributes input = Ok labels ↔
  ∃ v, run input = Ok v ∧ attrs v = labels.
Proof.
  unfold parseAttributes, completion_map. destruct (run input); simpl.
  - split; [intros [= <-]; eauto|]. by intros (? & [= <-] & <-).
  - split; [done|]. by intros (? & ? & _).
Qed.

(** C1, as the code has it. When the input ends inside a quoted value
    ([IN_QUOTE] after the last character), [parseAttributes] does not throw:
    it returns the labels stored before that quote was opened, and the
    pending name and partial value are dropped. *)
Theorem unterminated_quote_is_dropped (input : string) (v : Vars) :
  scan input = Ok v →
  state v = IN_QUOTE →
  parseAttributes input = Ok (attrs v) ∧ commit_log input = committed v.
Proof.
  intros Hscan Hst.
  unfold parseAttributes, commit_log, run, completion_map, finish.
  rewrite Hscan. simpl. rewrite Hst.
  rewrite bool_decide_eq_false_2 by done.
  rewrite bool_decide_eq_false_2 by (by intros [_ ?]).
  done.
Qed.

Lemma unterminated_quote_is_dropped_witness :
  parseAttributes unterminated = Ok ∅ ∧ commit_log unterminated = [].
Proof.
  refine (unterminated_quote_is_dropped unterminated
            {| attrs := ∅; state := IN_QUOTE; quote := dquote;
               attrBuf := chars "a"; valBuf := chars "unterminated";
               committed := [] |} _ _);
    vm_compute; reflexivity.
Defined.

(** C1, as the claim states it, fails: the fragment that ends inside a quote
    reaches the end of the input in [IN_QUOTE], and the parser returns an
    (empty) set of labels instead of throwing. *)
Lemma unterminated_quote_does_not_throw :
  (∃ v, scan unterminated = Ok v ∧ state v = IN_QUOTE) ∧
  parseAttributes unterminated = Ok ∅ ∧
  (∀ e, parseAttributes unterminated ≠ Throw e).
Proof.
  split_and!.
  - exists {| attrs := ∅; state := IN_QUOTE; quote := dquote;
              attrBuf := chars "a"; valBuf := chars "unterminated";
              committed := [] |}.
    split; vm_compute; reflexivity.
  - vm_compute. reflexivity.
  - intros e. vm_compute. discriminate.
Qed.

(** Away from [__proto__] the labels follow the commits: when
    [parseAttributes] accepts a fragment, the names of the labels it
    returns are those of the pairs committed, [__proto__] apart, each once,
    and the value stored for a name is the one of the last pair committed
    with that name. *)
Lemma labels_follow_commits (input : string) (labels : Labels) :
  parseAttributes input = Ok labels →
  NoDup (map_to_list labels).*1 ∧
  (∀ name, name ∈ (map_to_list labels).*1
           ↔ name ∈ (commit_log input).*1 ∧ name ≠ "__proto__") ∧
  (∀ name, name ≠ "__proto__" →
           labels !! name = last_write name (commit_log input)).
Proof.
  intros (v & Hrun & <-)%parseAttributes_Ok.
  assert (∀ name, attrs v !! name
                  = if bool_decide (name = "__proto__") then None
                    else last_write name (commit_log input)) as Hlast.
  { unfold commit_log. rewrite Hrun. by apply run_follows in Hrun. }
  split_and!; [apply NoDup_fst_map_to_list| |].
  - intros name.
    rewrite <- (last_write_is_Some name (commit_log input)).
    rewrite list_elem_of_fmap. specialize (Hlast name). split.
    + intros ([k x] & -> & Hkx%elem_of_map_to_list). simpl in *.
      rewrite Hkx in Hlast. case_bool_decide; [done|]. by split; [eexists|].
    + intros [[x Hx] Hne]. exists (name, x). split; [done|].
      apply elem_of_map_to_list. rewrite Hlast.
      by rewrite bool_decide_eq_false_2.
  - intros name Hne. rewrite Hlast. by rewrite bool_decide_eq_false_2.
Qed.

(** C7. The fragment [__proto__=1] is accepted and commits one pair, named
    [__proto__], yet the labels returned have no entry at all: the
    assignment [attrs[attrName] = attrValue] stores nothing under that
    name, so the committed name has no entry and its last value is not
    stored. *)
Lemma proto_label_is_not_stored :
  parseAttributes proto_fragment = Ok ∅ ∧
  commit_log proto_fragment = [("__proto__", "1")] ∧
  last_write "__proto__" (commit_log proto_fragment) = Some "1".
Proof. split_and!; vm_compute; reflexivity. Qed.

(** ** String primitives *)

Lemma chars_app a b : chars (a +:+ b) = chars a ++ chars b.
Proof. induction a as [|c a IH]; simpl; [done|]. by rewrite IH. Qed.

Lemma length_app a b :
  String.length (a +:+ b) = (String.length a + String.length b)%nat.
Proof. induction a as [|c a IH]; simpl; [done|]. by rewrite IH. Qed.

Lemma indexOf_lower c s : -1 ≤ indexOf c s.
Proof.
  induction s as [|a s IH]; simpl; [lia|].
  repeat case_bool_decide; lia.
Qed.

Lemma indexOf_notin c s : c ∉ chars s → indexOf c s = -1.
Proof.
  induction s as [|a s IH]; simpl; [done|].
  intros [Hne Hnin]%not_elem_of_cons.
  rewrite bool_decide_eq_false_2 by done.
  rewrite IH by done. done.
Qed.

Lemma indexOf_app c a b :
  c ∉ chars a → indexOf c (a +:+ String c b) = Z.of_nat (String.length a).
Proof.
  induction a as [|x a IH]; simpl.
  - intros _. by rewrite bool_decide_eq_true_2.
  - intros [Hne Hnin]%not_elem_of_cons.
    rewrite bool_decide_eq_false_2 by done.
    rewrite IH by done.
    rewrite bool_decide_eq_false_2 by lia. lia.
Qed.

Lemma Substring_0_0 s : String.substring 0 0 s = "".
Proof. by destruct s. Qed.

Lemma Substring_0_length s : String.substring 0 (String.length s) s = s.
Proof. induction s as [|c s IH]; simpl; [done|]. by rewrite IH. Qed.

Lemma Substring_app_l a b :
  String.substring 0 (String.length a) (a +:+ b) = a.
Proof.
  induction a as [|c a IH]; simpl; [apply Substring_0_0|]. by rewrite IH.
Qed.

Lemma Substring_app_r a b n m :
  String.substring (String.length a + n) m (a +:+ b) = String.substring n m b.
Proof. induction a as [|c a IH]; simpl; done. Qed.

Lemma clamp_nonpos i s : i ≤ 0 → clamp i s = 0%nat.
Proof. unfold clamp. lia. Qed.

Lemma clamp_inside (n : nat) s :
  (n ≤ String.length s)%nat → clamp (Z.of_nat n) s = n.
Proof. unfold clamp. lia. Qed.

Lemma substring_from_0 s : substring_from 0 s = s.
Proof.
  unfold substring_from, substring.
  rewrite clamp_nonpos, clamp_inside by lia.
  rewrite Nat.min_0_l, Nat.max_0_l, Nat.sub_0_r. apply Substring_0_length.
Qed.

Lemma substring_to_minus_1 s : substring 0 (-1) s = "".
Proof.
  unfold substring. rewrite !clamp_nonpos by lia. apply Substring_0_0.
Qed.

(** ** The exposition parser *)

(** The two parsing examples of the specification, and the line that ends
    inside a quote: it has no closing brace, so [substring] swaps its
    arguments, the fragment handed to [parseAttributes] is [foo{], and that
    one does throw. *)
Example parse_labels_example :
  parseAttributes (q "type=!enqueued!,tags=!billing!")
  = Ok (<["tags" := "billing"]> {[ "type" := "enqueued" ]}).
Proof. vm_compute. reflexivity. Qed.

Example parse_line_example :
  parseMetricLines (q "foo{a=1,b=!x y!} 3.5")
  = Ok {[ "foo" := [ {| labels := <["b" := "x y"]> {[ "a" := "1" ]};
                        value := Finite false 35 (-1) |} ] ]}.
Proof. vm_compute. reflexivity. Qed.

Example unterminated_line_throws :
  labelString_of ("foo{" +:+ unterminated) = "foo{" ∧
  parseMetricLines ("foo{" +:+ unterminated) = Throw InputEndedUnexpectedly.
Proof. split; vm_compute; reflexivity. Qed.

Lemma push_metric_ok metricName metric (result : Result) :
  ¬ inherited metricName →
  push_metric metricName metric result = Ok (pushed metricName metric result).
Proof.
  intros Hname. unfold push_metric, pushed.
  destruct (result !! metricName); simpl; [done|].
  by rewrite bool_decide_eq_false_2.
Qed.

Lemma push_metric_inherited metricName metric (result : Result) :
  inherited metricName → result !! metricName = None →
  push_metric metricName metric result = Throw PushIsNotAFunction.
Proof.
  intros Hname Hown. unfold push_metric. rewrite Hown.
  by rewrite bool_decide_eq_true_2.
Qed.

Lemma not_inherited_empty : ¬ inherited "".
Proof.
  unfold inherited, inherited_names. intros H.
  repeat (apply elem_of_cons in H as [H|H]; [done|]). by apply elem_of_nil in H.
Qed.

(** A line that is no comment and contains neither brace gives one sample
    with no labels, stored under the empty metric name, whose value is
    [parseFloat] of the whole trimmed line: [indexOf] gives -1 for both
    braces, and [substring] takes -1 as 0. *)
Lemma line_without_braces (result : Result) (line : string) :
  startsWith "#" line = false →
  lbrace ∉ chars line →
  rbrace ∉ chars line →
  parseLine result line
  = Ok (pushed "" {| labels := ∅; value := parseFloat (trim line) |} result).
Proof.
  intros Hcomment Hl Hr. unfold parseLine. rewrite Hcomment.
  rewrite (indexOf_notin lbrace), (indexOf_notin rbrace) by done.
  replace (-1 + 1) with 0 by lia.
  rewrite substring_to_minus_1, substring_from_0.
  change (trim "") with "".
  change (parseAttributes "") with (@Ok Labels ∅). simpl bind.
  apply push_metric_ok, not_inherited_empty.
Qed.

(** C2. The line [foo 3.5] does not give a sample of [foo] with value 3.5:
    it has no brace, both [indexOf] give -1, and the sample is stored under
    the empty name with the value [NaN], although the text after the name
    reads as 3.5. *)
Lemma line_without_braces_has_no_name :
  indexOf lbrace bare_line = -1 ∧ indexOf rbrace bare_line = -1 ∧
  parseMetricLines bare_line
  = Ok {[ "" := [ {| labels := ∅; value := NaN |} ] ]}
  ∧ parseFloat "3.5" = Finite false 35 (-1).
Proof. split_and!; vm_compute; reflexivity. Qed.

(** C3, as the code has it. A data line whose text after the closing brace
    does not read as a number makes no error on that account: when its
    label fragment parses and its metric name is not the name of a member
    of [Object.prototype], the line gives a sample whose value is [NaN],
    and the parse goes on with the lines that follow. *)
Theorem non_numeric_value_is_NaN
    (result : Result) (line : string) (labels : Labels) :
  startsWith "#" line = false →
  parseAttributes (labelString_of line) = Ok labels →
  parseFloat (valueText_of line) = NaN →
  ¬ inherited (metricName_of line) →
  parseLine result line
  = Ok (pushed (metricName_of line)
               {| labels := labels; value := NaN |} result)
  ∧ (∀ following,
       for_of parseLine (line :: following) result
       = for_of parseLine following
           (pushed (metricName_of line)
                   {| labels := labels; value := NaN |} result)).
Proof.
  intros Hcomment Hlabels Hvalue Hname.
  assert (parseLine result line
          = Ok (pushed (metricName_of line)
                       {| labels := labels; value := NaN |} result)) as Hline.
  { unfold parseLine. rewrite Hcomment.
    fold (labelString_of line) (valueText_of line) (metricName_of line).
    rewrite Hlabels, Hvalue. simpl bind. by apply push_metric_ok. }
  split; [done|]. intros following. simpl. by rewrite Hline.
Qed.

Lemma non_numeric_value_is_NaN_witness :
  parseLine ∅ non_numeric_line
  = Ok (pushed (metricName_of non_numeric_line)
               {| labels := {[ "a" := "1" ]}; value := NaN |} ∅).
Proof.
  refine (proj1 (non_numeric_value_is_NaN ∅ non_numeric_line {[ "a" := "1" ]}
                   _ _ _ _)).
  - vm_compute; reflexivity.
  - vm_compute; reflexivity.
  - vm_compute; reflexivity.
  - intros H. unfold inherited, inherited_names in H.
    change (metricName_of non_numeric_line) with "foo" in H.
    repeat (apply elem_of_cons in H as [H|H]; [done|]). by apply elem_of_nil in H.
Defined.

(** C3, as the claim states it, fails: the line [foo{a="1"} abc] is parsed
    without error into a sample of [foo] whose value is [NaN]. *)
Lemma non_numeric_value_does_not_throw :
  parseFloat (valueText_of non_numeric_line) = NaN ∧
  parseMetricLines non_numeric_line
  = Ok {[ "foo" := [ {| labels := {[ "a" := "1" ]}; value := NaN |} ] ]}.
Proof. split; vm_compute; reflexivity. Qed.

(** ** The tag counter *)

(** C10. A sample whose [type] is [enqueued] and that has no [tags] label
    changes no counter and raises nothing: counting it leaves [queueCount]
    as it was, and the counts of a scrape are those of the scrape without
    that sample. *)
Theorem sample_without_tags_counts_nothing (tags : list string) (m : Metric) :
  labels m !! "type" = Some "enqueued" →
  labels m !! "tags" = None →
  (∀ queueCount, countTags tags queueCount m = queueCount) ∧
  (∀ before after,
     countQueue tags (before ++ m :: after) = countQueue tags (before ++ after)).
Proof.
  intros Htype Htags.
  assert (∀ queueCount, countTags tags queueCount m = queueCount) as Hskip.
  { intros queueCount. unfold countTags. rewrite Htags.
    induction tags as [|tag tags' IH]; simpl; done. }
  split; [done|].
  intros before after. unfold countQueue.
  rewrite !filter_app, filter_cons, decide_True by done.
  rewrite !foldl_app. simpl. by rewrite Hskip.
Qed.

Lemma sample_without_tags_counts_nothing_witness :
  (∀ queueCount,
     countTags ["billing"]
       queueCount {| labels := {[ "type" := "enqueued" ]}; value := NaN |}
     = queueCount) ∧
  (∀ before after,
     countQueue ["billing"]
       (before ++ {| labels := {[ "type" := "enqueued" ]}; value := NaN |}
               :: after)
     = countQueue ["billing"] (before ++ after)).
Proof.
  apply (sample_without_tags_counts_nothing ["billing"]
           {| labels := {[ "type" := "enqueued" ]}; value := NaN |});
    vm_compute; reflexivity.
Defined.

(** ** Incident clustering *)

Lemma isWithinTolerance_spec d1 d2 tol :
  isWithinTolerance d1 d2 tol = true ↔ Z.abs (d1 - d2) ≤ tol * 1000.
Proof. unfold isWithinTolerance. apply bool_decide_eq_true. Qed.

Lemma groupIncidents_snoc now maxAge period incidents incident :
  groupIncidents now maxAge period (incidents ++ [incident])
  = groupStep now maxAge period (groupIncidents now maxAge period incidents)
              incident.
Proof. unfold groupIncidents. by rewrite foldl_app. Qed.

Lemma groupStep_too_old now maxAge period groups incident :
  isWithinTolerance (startsAt incident) now maxAge = false →
  groupStep now maxAge period groups incident = groups.
Proof. intros H. unfold groupStep. by rewrite H. Qed.

(** The first group, in creation order, that matches decides the step. *)
Lemma groupStep_first_match now maxAge period groups incident i g :
  isWithinTolerance (startsAt incident) now maxAge = true →
  groups !! i = Some g →
  group_matches period incident g →
  (∀ j y, groups !! j = Some y → (j < i)%nat →
          ¬ group_matches period incident y) →
  groupStep now maxAge period groups incident
  = if bool_decide (host incident ∈ hosts g) then groups
    else <[i := add_to_group incident g]> groups.
Proof.
  intros Hage Hi Hm Hfirst. unfold groupStep. rewrite Hage. simpl.
  assert (list_find (group_matches period incident) groups = Some (i, g))
    as -> by (by apply list_find_Some).
  done.
Qed.

Lemma groupStep_no_match now maxAge period groups incident :
  isWithinTolerance (startsAt incident) now maxAge = true →
  (∀ g, g ∈ groups → ¬ group_matches period incident g) →
  groupStep now maxAge period groups incident
  = groups ++ [new_group incident].
Proof.
  intros Hage Hnone. unfold groupStep. rewrite Hage. simpl.
  assert (list_find (group_matches period incident) groups = None) as ->;
    [|done].
  apply list_find_None, Forall_forall. auto.
Qed.

Lemma new_group_span_ok incident : span_ok (new_group incident).
Proof. unfold span_ok. simpl. lia. Qed.

Lemma add_to_group_span_ok incident g :
  span_ok g → span_ok (add_to_group incident g).
Proof. unfold span_ok. simpl. lia. Qed.

Lemma groupStep_span_ok now maxAge period groups incident :
  Forall span_ok groups →
  Forall span_ok (groupStep now maxAge period groups incident).
Proof.
  intros Hok. unfold groupStep.
  destruct (negb _); [done|].
  destruct (list_find _ _) as [[i g]|] eqn:Hfind.
  - case_bool_decide; [done|].
    apply list_find_Some in Hfind as (Hi & _ & _).
    apply Forall_insert; [done|].
    apply add_to_group_span_ok.
    by eapply Forall_lookup_1 in Hok.
  - apply Forall_app. split; [done|].
    apply Forall_singleton, new_group_span_ok.
Qed.

(** C9. At every moment of a run of [groupIncidents] (after any number [k]
    of loop iterations over any input), every group held satisfies
    [span_ok], that is [startsAtMin ≤ startsAtMax]: a new group starts with both equal to the
    incident's timestamp, and widening by min/max keeps the order. *)
Theorem span_start_le_span_end
    (now maxAge period : Z) (incidents : list Incident) (k : nat) :
  Forall span_ok (groupIncidents now maxAge period (take k incidents)).
Proof.
  generalize (take k incidents). intros l.
  induction l as [|incident l IH] using rev_ind.
  - constructor.
  - rewrite groupIncidents_snoc. by apply groupStep_span_ok.
Qed.

(** C5. An incident whose matched group (the first matching one, which
    [find] returns) already lists its host leaves the whole list of groups
    as it was: no hosts, count or bounds change and no group is added. *)
Theorem duplicate_host_is_ignored
    (now maxAge period : Z) (groups : list IncidentGroup)
    (incident : Incident) (i : nat) (group : IncidentGroup) :
  list_find (group_matches period incident) groups = Some (i, group) →
  host incident ∈ hosts group →
  groupStep now maxAge period groups incident = groups.
Proof.
  intros Hfind Hin. unfold groupStep.
  destruct (negb _); [done|].
  rewrite Hfind. by rewrite bool_decide_eq_true_2.
Qed.

(** C6. An incident older than the horizon ([now − startsAt] exceeds
    [gamasMaxIncidentAgeSeconds], in milliseconds) is skipped: the groups are
    unchanged by it, and the result of the run is the one the input without
    that incident gives. *)
Theorem old_incident_is_discarded
    (now maxAge period : Z) (incident : Incident) :
  now - startsAt incident > maxAge * 1000 →
  (∀ groups, groupStep now maxAge period groups incident = groups) ∧
  (∀ before after,
     groupIncidents now maxAge period (before ++ incident :: after)
     = groupIncidents now maxAge period (before ++ after)).
Proof.
  intros Hold.
  assert (∀ groups, groupStep now maxAge period groups incident = groups)
    as Hskip.
  { intros groups. apply groupStep_too_old.
    apply not_true_is_false. rewrite isWithinTolerance_spec. lia. }
  split; [done|].
  intros before after. unfold groupIncidents.
  rewrite !foldl_app. simpl. by rewrite Hskip.
Qed.

(** C4. Three incidents of one region and link at 0 s, 50 s and 500 s, all
    within the horizon of 100000 s, with a tolerance of 100 s, give exactly
    two groups: hosts A and B spanning 0 to 50 s, and host C alone at 500 s.
    In general the step joins the first group in creation order that has
    the incident's region and link and whose [startsAtMin] or [startsAtMax]
    is within the tolerance of the incident, and appends a new group when
    no group is such. *)
Theorem three_incidents_two_groups
    (now : Z) (K_region K_link A B C : string) :
  A ≠ B →
  Z.abs (0 - now) ≤ 100000 * 1000 →
  Z.abs (500 * 1000 - now) ≤ 100000 * 1000 →
  groupIncidents now 100000 100 (three_incidents K_region K_link A B C)
  = [ {| group_region := K_region; group_link := K_link; hosts := [A; B];
         count := 2; startsAtMin := 0; startsAtMax := 50 * 1000 |};
      {| group_region := K_region; group_link := K_link; hosts := [C];
         count := 1; startsAtMin := 500 * 1000; startsAtMax := 500 * 1000 |} ]
  ∧ (∀ maxAge period groups incident,
       isWithinTolerance (startsAt incident) now maxAge = true →
       (∀ i g,
          groups !! i = Some g →
          group_matches period incident g →
          (∀ j y, groups !! j = Some y → (j < i)%nat →
                  ¬ group_matches period incident y) →
          groupStep now maxAge period groups incident
          = if bool_decide (host incident ∈ hosts g) then groups
            else <[i := add_to_group incident g]> groups)
       ∧ ((∀ g, g ∈ groups → ¬ group_matches period incident g) →
          groupStep now maxAge period groups incident
          = groups ++ [new_group incident])).
Proof.
  intros HAB H0 H500. split.
  - unfold groupIncidents, three_incidents. simpl foldl.
    set (e1 := {| startsAt := 0; host := A |}).
    set (e2 := {| startsAt := 50 * 1000; host := B |}).
    set (e3 := {| startsAt := 500 * 1000; host := C |}).
    assert (groupStep now 100000 100 [] e1 = [new_group e1]) as ->.
    { apply (groupStep_no_match _ _ _ []).
      - by apply isWithinTolerance_spec.
      - by intros g ?%elem_of_nil. }
    assert (groupStep now 100000 100 [new_group e1] e2
            = [add_to_group e2 (new_group e1)]) as ->.
    { rewrite (groupStep_first_match _ _ _ _ _ 0%nat (new_group e1)).
      - rewrite bool_decide_eq_false_2; [done|].
        simpl. by intros ->%list_elem_of_singleton.
      - apply isWithinTolerance_spec. simpl. lia.
      - reflexivity.
      - split_and!; [done..|]. left.
        apply Is_true_true, isWithinTolerance_spec. simpl. lia.
      - intros j y _ Hj. lia. }
    rewrite groupStep_no_match; [done|..].
    + apply isWithinTolerance_spec. simpl. lia.
    + intros g ->%list_elem_of_singleton (_ & _ & [Hw|Hw]);
        apply Is_true_true, isWithinTolerance_spec in Hw; simpl in Hw; lia.
  - intros maxAge period groups incident Hage. split.
    + intros i g. by apply groupStep_first_match.
    + by apply groupStep_no_match.
Qed.

Lemma three_incidents_two_groups_witness :
  groupIncidents (500 * 1000) 100000 100 (three_incidents "R" "L" "A" "B" "C")
  = [ {| group_region := "R"; group_link := "L"; hosts := ["A"; "B"];
         count := 2; startsAtMin := 0; startsAtMax := 50 * 1000 |};
      {| group_region := "R"; group_link := "L"; hosts := ["C"];
         count := 1; startsAtMin := 500 * 1000; startsAtMax := 500 * 1000 |} ].
Proof.
  refine (proj1 (three_incidents_two_groups
                   (500 * 1000) "R" "L" "A" "B" "C" _ _ _));
    [done | simpl; lia | simpl; lia].
Defined.

Lemma duplicate_host_is_ignored_witness :
  groupStep 60000 100000 100
    [ {| group_region := "R"; group_link := "L"; hosts := ["A"; "B"];
         count := 2; startsAtMin := 0; startsAtMax := 50 * 1000 |} ]
    {| startsAt := 60 * 1000; host := "A"; link := "L"; region := "R" |}
  = [ {| group_region := "R"; group_link := "L"; hosts := ["A"; "B"];
         count := 2; startsAtMin := 0; startsAtMax := 50 * 1000 |} ].
Proof.
  eapply (duplicate_host_is_ignored 60000 100000 100 _ _ 0%nat).
  - vm_compute. reflexivity.
  - simpl. apply list_elem_of_here.
Defined.

Lemma old_incident_is_discarded_witness :
  200000000 - 0 > 100000 * 1000 ∧
  groupIncidents 200000000 100000 100
    [ {| startsAt := 0; host := "A"; link := "L"; region := "R" |} ]
  = groupIncidents 200000000 100000 100 [].
Proof.
  split; [lia|].
  refine (proj2 (old_incident_is_discarded 200000000 100000 100
                   {| startsAt := 0; host := "A"; link := "L"; region := "R" |}
                   _) [] []).
  simpl. lia.
Defined.

(** ** Rendering and parsing back *)

Lemma app_cons x a b : String x a +:+ b = String x (a +:+ b).
Proof. reflexivity. Qed.

Lemma app_String_assoc a c b d :
  (a +:+ String c b) +:+ d = a +:+ String c (b +:+ d).
Proof.
  induction a as [|x a IH]; [done|]. rewrite !app_cons. by rewrite IH.
Qed.

Lemma trimStart_id c s :
  is_white_space c = false → trimStart (String c s) = String c s.
Proof. intros H. simpl. by rewrite H. Qed.

Lemma trimEnd_cons c s :
  trimEnd s = s → s ≠ "" → trimEnd (String c s) = String c s.
Proof. intros Hs Hne. simpl. rewrite Hs. by destruct s. Qed.

Lemma trimEnd_app a b :
  trimEnd b = b → b ≠ "" → trimEnd (a +:+ b) = a +:+ b.
Proof.
  intros Hb Hne. induction a as [|c a IH]; [done|].
  rewrite app_cons. apply trimEnd_cons; [done|].
  destruct a; [done|]. by rewrite app_cons.
Qed.

Lemma trimEnd_no_space s :
  Forall (λ c, is_white_space c = false) (chars s) → trimEnd s = s.
Proof.
  induction s as [|c s IH]; simpl; [done|].
  intros [Hc Hs]%Forall_cons. rewrite IH by done.
  destruct s; [by rewrite Hc|done].
Qed.

Lemma trim_no_space s :
  Forall (λ c, is_white_space c = false) (chars s) → trim s = s.
Proof.
  intros Hs. unfold trim.
  assert (trimStart s = s) as ->; [|by apply trimEnd_no_space].
  destruct s as [|c s]; [done|].
  apply trimStart_id. by apply Forall_cons in Hs as [? _].
Qed.

Lemma split_no_sep sep s : sep ∉ chars s → split sep s = [s].
Proof.
  induction s as [|c s IH]; simpl; [done|].
  intros [Hne Hnin]%not_elem_of_cons.
  rewrite bool_decide_eq_false_2 by done. by rewrite IH.
Qed.

Lemma split_app_sep sep a b :
  sep ∉ chars a → split sep (a +:+ String sep b) = a :: split sep b.
Proof.
  induction a as [|c a IH]; simpl.
  - intros _. by rewrite bool_decide_eq_true_2.
  - intros [Hne Hnin]%not_elem_of_cons.
    rewrite bool_decide_eq_false_2 by done. by rewrite IH.
Qed.

Lemma split_join sep pieces :
  pieces ≠ [] →
  Forall (λ piece, sep ∉ chars piece) pieces →
  split sep (join (String sep "") pieces) = pieces.
Proof.
  intros Hne Hall. induction Hall as [|piece pieces Hpiece Hall IH]; [done|].
  destruct pieces as [|piece' pieces'].
  - simpl. by apply split_no_sep.
  - unfold join in *. simpl String.concat.
    change (String sep "" +:+ ?s) with (String sep s).
    rewrite split_app_sep by done. f_equal. by apply IH.
Qed.

Lemma substring_inside (i j : nat) s :
  (i ≤ j)%nat → (j ≤ String.length s)%nat →
  substring (Z.of_nat i) (Z.of_nat j) s = String.substring i (j - i) s.
Proof.
  intros Hij Hj. unfold substring.
  rewrite !clamp_inside by lia.
  by rewrite Nat.min_l, Nat.max_r by lia.
Qed.

(** How [parseLine] cuts a line that has both braces: name, label fragment
    and value text. *)
Lemma parseLine_cut result name frag rest :
  startsWith "#" (name +:+ String lbrace (frag +:+ String rbrace rest)) = false →
  lbrace ∉ chars name → rbrace ∉ chars name → rbrace ∉ chars frag →
  parseLine result (name +:+ String lbrace (frag +:+ String rbrace rest))
  = do labels <- parseAttributes (trim frag);
    push_metric (trim name)
      {| labels := labels; value := parseFloat (trim rest) |} result.
Proof.
  intros Hcomment Hl Hr Hfrag. unfold parseLine. rewrite Hcomment.
  set (line := name +:+ String lbrace (frag +:+ String rbrace rest)).
  assert (indexOf lbrace line = Z.of_nat (String.length name)) as ->
    by (by apply indexOf_app).
  assert (indexOf rbrace line
          = Z.of_nat (String.length name + 1 + String.length frag)) as ->.
  { unfold line. rewrite <- app_String_assoc, indexOf_app.
    - rewrite length_app. simpl. f_equal. lia.
    - rewrite chars_app. simpl. rewrite elem_of_app, elem_of_cons.
      intros [?|[?|?]]; done. }
  assert (String.length line
          = (String.length name + 1 + String.length frag + 1
             + String.length rest)%nat) as Hlen.
  { unfold line. rewrite !length_app. simpl. rewrite length_app. simpl. lia. }
  assert (substring 0 (Z.of_nat (String.length name)) line = name) as ->.
  { rewrite (substring_inside 0) by lia.
    rewrite Nat.sub_0_r. apply Substring_app_l. }
  assert (substring (Z.of_nat (String.length name) + 1)
            (Z.of_nat (String.length name + 1 + String.length frag)) line
          = frag) as ->.
  { replace (Z.of_nat (String.length name) + 1)
      with (Z.of_nat (String.length name + 1)) by lia.
    rewrite substring_inside by lia.
    replace (String.length name + 1 + String.length frag
             - (String.length name + 1))%nat
      with (String.length frag) by lia.
    unfold line. rewrite Substring_app_r. simpl. apply Substring_app_l. }
  assert (substring_from
            (Z.of_nat (String.length name + 1 + String.length frag) + 1) line
          = rest) as ->.
  { unfold substring_from.
    replace (Z.of_nat (String.length name + 1 + String.length frag) + 1)
      with (Z.of_nat (String.length name + 1 + String.length frag + 1)) by lia.
    rewrite substring_inside by lia.
    rewrite Hlen.
    replace (String.length name + 1 + String.length frag + 1
             + String.length rest
             - (String.length name + 1 + String.length frag + 1))%nat
      with (String.length rest) by lia.
    unfold line.
    replace (String.length name + 1 + String.length frag + 1)%nat
      with (String.length name + S (String.length frag + 1))%nat by lia.
    rewrite Substring_app_r. simpl.
    rewrite Substring_app_r. simpl. apply Substring_0_length. }
  reflexivity.
Qed.

Lemma digit_of_not_space c d : digit_of c = Some d → is_white_space c = false.
Proof.
  destruct c as [[] [] [] [] [] [] [] []]; simpl; intros; simplify_eq; done.
Qed.

Lemma show_count_digits n :
  Forall (λ c, is_Some (digit_of c)) (chars (show_count n)).
Proof.
  unfold show_count. induction (N.to_uint n); simpl; [done|..];
    by (constructor; [eexists|]).
Qed.

Lemma show_count_nonempty n : show_count n ≠ "".
Proof.
  unfold show_count.
  assert (N.to_uint n ≠ Nil) as Hne.
  { destruct n; [done|]. apply DecimalPos.Unsigned.to_uint_nonnil. }
  by destruct (N.to_uint n).
Qed.

Lemma show_count_no_space n :
  Forall (λ c, is_white_space c = false) (chars (show_count n)).
Proof.
  eapply Forall_impl; [apply show_count_digits|].
  intros c [d Hd]. by eapply digit_of_not_space.
Qed.

Lemma scan_digits_string_of_uint u :
  scan_digits (NilEmpty.string_of_uint u) = (u, "").
Proof. induction u; simpl; [done|..]; by rewrite IHu. Qed.

Lemma parseFloat_show_count n : parseFloat (show_count n) = of_count n.
Proof.
  pose proof (show_count_nonempty n) as Hne.
  pose proof (scan_digits_string_of_uint (N.to_uint n)) as Hscan.
  pose proof (DecimalN.Unsigned.of_to n) as Hn.
  unfold show_count in *. unfold parseFloat, of_count.
  destruct (N.to_uint n) as [|u|u|u|u|u|u|u|u|u|u] eqn:Hu; [done|..];
    simpl in *; rewrite Hscan; simpl;
    rewrite ?DecimalFacts.app_nil_r; by rewrite <- Hn.
Qed.

Lemma for_of_app {S X} (body : S → X → completion S) xs ys s :
  for_of body (xs ++ ys) s = do s' <- for_of body xs s; for_of body ys s'.
Proof.
  revert s. induction xs as [|x xs IH]; intros s; simpl; [done|].
  destruct (body s x); simpl; [apply IH|done].
Qed.

(** Inside a quote every character but the closing one is kept as it is. *)
Lemma step_in_quote cs a q ab vb log :
  q ∉ cs →
  for_of step cs
    {| attrs := a; state := IN_QUOTE; quote := q; attrBuf := ab; valBuf := vb;
       committed := log |}
  = Ok {| attrs := a; state := IN_QUOTE; quote := q; attrBuf := ab;
          valBuf := vb ++ cs; committed := log |}.
Proof.
  revert vb. induction cs as [|c cs IH]; intros vb Hq; simpl.
  - by rewrite app_nil_r.
  - apply not_elem_of_cons in Hq as [Hne Hq].
    unfold step at 1. simpl. rewrite bool_decide_eq_false_2 by done.
    simpl. unfold push_val. simpl. rewrite IH by done.
    by rewrite <- app_assoc.
Qed.

Lemma parseAttributes_tag_fragment tag :
  dquote ∉ chars tag →
  parseAttributes (tag_fragment tag) = Ok {[ "tag" := tag ]}.
Proof.
  intros Hq. unfold parseAttributes, run, scan, tag_fragment.
  rewrite chars_app. simpl chars at 1.
  change (chars (String dquote (tag +:+ String dquote "")))
    with (dquote :: chars (tag +:+ String dquote "")).
  rewrite chars_app.
  change (?l ++ dquote :: ?r) with ((l ++ [dquote]) ++ r).
  rewrite (for_of_app step (_ ++ [dquote])).
  set (opened := for_of step (_ ++ [dquote]) init).
  assert (opened
          = Ok {| attrs := ∅; state := IN_QUOTE; quote := dquote;
                  attrBuf := chars "tag"; valBuf := []; committed := [] |})
    as -> by (vm_compute; reflexivity).
  simpl bind. rewrite for_of_app, step_in_quote by done. simpl bind.
  simpl. unfold join_chars, chars, assign.
  rewrite bool_decide_eq_false_2 by done.
  by rewrite string_of_list_ascii_of_string, insert_empty.
Qed.

Lemma plain_tag_no_quote tag : plain_tag tag → dquote ∉ chars tag.
Proof.
  unfold plain_tag. rewrite Forall_forall. intros H Hin.
  by destruct (H _ Hin) as [? _].
Qed.

Lemma plain_tag_no_newline tag : plain_tag tag → newline ∉ chars tag.
Proof.
  unfold plain_tag. rewrite Forall_forall. intros H Hin.
  by destruct (H _ Hin) as (_ & _ & ?).
Qed.

Lemma trimStart_idem s : trimStart (trimStart s) = trimStart s.
Proof.
  induction s as [|c s IH]; simpl; [done|].
  destruct (is_white_space c) eqn:Hc; [done|]. simpl. by rewrite Hc.
Qed.

Lemma trim_trimStart s : trim (trimStart s) = trim s.
Proof. unfold trim. by rewrite trimStart_idem. Qed.

Lemma trimStart_app_char a c s :
  is_white_space c = false →
  trimStart (a +:+ String c s) = trimStart a +:+ String c s.
Proof.
  intros Hc. induction a as [|x a IH].
  - simpl. by rewrite Hc.
  - rewrite app_cons. simpl. destruct (is_white_space x); [done|].
    by rewrite app_cons.
Qed.

Lemma trimStart_notin c s : c ∉ chars s → c ∉ chars (trimStart s).
Proof.
  induction s as [|x s IH]; simpl; [done|].
  intros [Hne Hnin]%not_elem_of_cons.
  destruct (is_white_space x); [by apply IH|].
  by apply not_elem_of_cons.
Qed.

Lemma renderLine_shape name tag count :
  renderLine name (tag, count)
  = name +:+ String lbrace
      (tag_fragment tag +:+ String rbrace (String space (show_count count))).
Proof.
  unfold renderLine, tag_fragment. simpl fst. simpl snd.
  change ("{tag=" +:+ ?s) with (String lbrace ("tag=" +:+ s)).
  do 2 f_equal.
  change ("tag=" +:+ ?s) with (String "t" (String "a" (String "g" (String "=" s)))).
  rewrite !app_cons. do 5 f_equal.
  rewrite app_String_assoc. reflexivity.
Qed.

(** A line that opens with a name and a brace is no comment when the first
    character of the name that is no white space is not [#]. *)
Lemma startsWith_hash_rendered name s :
  startsWith "#" (trimStart name) = false →
  startsWith "#" (name +:+ String lbrace s) = false.
Proof.
  intros Hname. destruct name as [|c name]; [done|].
  rewrite app_cons. unfold startsWith in *. cbn [String.prefix].
  destruct (ascii_dec "#" c) as [<-|?]; [|done].
  simpl in Hname. by destruct name.
Qed.

Lemma trim_tag_fragment tag : trim (tag_fragment tag) = tag_fragment tag.
Proof.
  unfold trim, tag_fragment.
  change ("tag=" +:+ ?s)
    with (String "t" (String "a" (String "g" (String "=" s)))).
  rewrite trimStart_id by done.
  do 4 (apply trimEnd_cons; [|done]).
  apply trimEnd_cons; [by apply trimEnd_app|by destruct tag].
Qed.

Lemma trim_space_count count :
  trim (String space (show_count count)) = show_count count.
Proof.
  unfold trim. simpl trimStart.
  pose proof (show_count_no_space count) as Hs.
  destruct (show_count count) as [|c s] eqn:Hshow; [done|].
  rewrite trimStart_id by (by apply Forall_cons in Hs as [? _]).
  by apply trimEnd_no_space.
Qed.

(** A rendered line parses to the sample of its entry, stored under the
    trimmed name. *)
Lemma parseLine_rendered result name tag count :
  lbrace ∉ chars name → rbrace ∉ chars name →
  startsWith "#" (trimStart name) = false →
  ¬ inherited (trim name) →
  dquote ∉ chars tag → rbrace ∉ chars tag →
  parseLine result (renderLine name (tag, count))
  = Ok (pushed (trim name) (sample_of (tag, count)) result).
Proof.
  intros Hl Hr Hhash Hname Hq Hrt. rewrite renderLine_shape.
  rewrite parseLine_cut.
  - rewrite trim_tag_fragment, parseAttributes_tag_fragment by done.
    simpl bind. rewrite trim_space_count, parseFloat_show_count.
    by apply push_metric_ok.
  - by apply startsWith_hash_rendered.
  - done.
  - done.
  - unfold tag_fragment. rewrite chars_app. simpl.
    rewrite chars_app. simpl.
    rewrite !elem_of_cons, elem_of_app, list_elem_of_singleton.
    intros [?|[?|[?|[?|[?|[?|?]]]]]]; done.
Qed.

Lemma for_of_parseLine_rendered name entries result :
  lbrace ∉ chars name → rbrace ∉ chars name →
  startsWith "#" (trimStart name) = false →
  ¬ inherited (trim name) →
  Forall (λ e : string * N, (dquote ∉ chars (e.1)) ∧ (rbrace ∉ chars (e.1)))
         entries →
  for_of parseLine (renderLine name <$> entries) result
  = Ok (foldl (λ r e, pushed (trim name) (sample_of e) r) result entries).
Proof.
  intros Hl Hr Hhash Hname Hall. revert result.
  induction Hall as [|[tag count] entries [Hq Hrt] Hall IH]; intros result;
    simpl; [done|].
  rewrite parseLine_rendered by done. simpl. apply IH.
Qed.

Lemma foldl_pushed_lookup name (ms : list Metric) (result : Result) :
  default [] (foldl (λ r m, pushed name m r) result ms !! name)
  = default [] (result !! name) ++ ms.
Proof.
  revert result. induction ms as [|m ms IH]; intros result; simpl.
  - by rewrite app_nil_r.
  - rewrite IH. unfold pushed. rewrite lookup_insert_eq. simpl.
    by rewrite <- app_assoc.
Qed.

Lemma foldl_pushed_nonempty name (ms : list Metric) (result : Result) :
  ms ≠ [] →
  foldl (λ r m, pushed name m r) result ms
  = <[name := default [] (result !! name) ++ ms]> result.
Proof.
  revert result. induction ms as [|m ms IH]; intros result Hne; [done|].
  simpl. destruct ms as [|m' ms]; [done|].
  rewrite IH by done. unfold pushed.
  rewrite lookup_insert_eq, insert_insert_eq. simpl.
  by rewrite <- app_assoc.
Qed.

Lemma foldl_pushed_sample_of name entries (result : Result) :
  foldl (λ r e, pushed name (sample_of e) r) result entries
  = foldl (λ r m, pushed name m r) result (sample_of <$> entries).
Proof.
  revert result. induction entries as [|e entries IH]; intros result; simpl;
    [done|apply IH].
Qed.

Lemma app_nonempty_r a b : b ≠ "" → a +:+ b ≠ "".
Proof. intros Hb. destruct a; [done|]. by rewrite app_cons. Qed.

Lemma renderLine_trimEnd name tag count :
  trimEnd (renderLine name (tag, count)) = renderLine name (tag, count)
  ∧ renderLine name (tag, count) ≠ "".
Proof.
  rewrite renderLine_shape. split; [|by apply app_nonempty_r].
  apply trimEnd_app; [|done].
  apply trimEnd_cons; [|by apply app_nonempty_r].
  apply trimEnd_app; [|done].
  do 2 (apply trimEnd_cons; [|done || apply show_count_nonempty]).
  apply trimEnd_no_space, show_count_no_space.
Qed.

Lemma render_cons name e e' entries :
  render name (e :: e' :: entries)
  = renderLine name e +:+ String newline (render name (e' :: entries)).
Proof. reflexivity. Qed.

Lemma render_trimEnd name entries :
  entries ≠ [] →
  trimEnd (render name entries) = render name entries
  ∧ render name entries ≠ "".
Proof.
  intros Hne. induction entries as [|[tag count] entries IH]; [done|].
  destruct entries as [|e' entries].
  - apply renderLine_trimEnd.
  - rewrite render_cons. destruct IH as [IH1 IH2]; [done|].
    split; [|by apply app_nonempty_r].
    apply trimEnd_app; [|done]. by apply trimEnd_cons.
Qed.

Lemma renderLine_no_newline name tag count :
  newline ∉ chars name → newline ∉ chars tag →
  newline ∉ chars (renderLine name (tag, count)).
Proof.
  intros Hname Htag. rewrite renderLine_shape.
  unfold tag_fragment.
  repeat first [ rewrite chars_app
               | progress change (chars (String ?c ?s)) with (c :: chars s) ].
  change (chars "") with (@nil ascii).
  repeat first [rewrite not_elem_of_app | rewrite not_elem_of_cons].
  pose proof (show_count_no_space count) as Hd. rewrite Forall_forall in Hd.
  split_and!; try done.
  - apply not_elem_of_nil.
  - apply not_elem_of_nil.
  - by intros ?%Hd.
Qed.

Lemma renderLine_trimStart name entry :
  trimStart (renderLine name entry) = renderLine (trimStart name) entry.
Proof.
  destruct entry as [tag count]. rewrite !renderLine_shape.
  by apply trimStart_app_char.
Qed.

(** The lines [parseMetricLines] sees in a rendered text: those written,
    the first without the white space its name starts with. *)
Lemma render_lines name entry entries :
  newline ∉ chars name →
  Forall (λ e : string * N, newline ∉ chars (e.1)) (entry :: entries) →
  split newline (trim (render name (entry :: entries)))
  = renderLine (trimStart name) entry :: (renderLine name <$> entries).
Proof.
  intros Hname [Hentry Hall]%Forall_cons. unfold trim.
  destruct entry as [tag count].
  destruct entries as [|e' entries].
  - change (render name [(tag, count)]) with (renderLine name (tag, count)).
    rewrite renderLine_trimStart.
    destruct (renderLine_trimEnd (trimStart name) tag count) as [-> _].
    apply split_no_sep, renderLine_no_newline; [|done].
    by apply trimStart_notin.
  - rewrite render_cons.
    assert (trimStart (renderLine name (tag, count)
                       +:+ String newline (render name (e' :: entries)))
            = renderLine (trimStart name) (tag, count)
              +:+ String newline (render name (e' :: entries))) as ->.
    { rewrite !renderLine_shape, !app_String_assoc.
      by apply trimStart_app_char. }
    destruct (render_trimEnd name (e' :: entries)) as [Hend Hne]; [done|].
    rewrite trimEnd_app; [|by apply trimEnd_cons|done].
    rewrite split_app_sep.
    + f_equal. unfold render. apply split_join; [done|].
      apply Forall_fmap. eapply Forall_impl; [exact Hall|].
      intros [tag' count'] Htag. by apply renderLine_no_newline.
    + apply renderLine_no_newline; [|done]. by apply trimStart_notin.
Qed.

Lemma last_write_elem {V} name (log : list (string * V)) x :
  NoDup log.*1 →
  last_write name log = Some x ↔ (name, x) ∈ log.
Proof.
  induction log as [|[k y] log IH] using rev_ind; intros Hnd.
  - rewrite last_write_nil. split; [done|]. by intros ?%elem_of_nil.
  - rewrite fmap_app in Hnd. simpl in Hnd.
    apply NoDup_app in Hnd as (Hnd & Hk & _).
    rewrite last_write_snoc, elem_of_app, list_elem_of_singleton.
    case_decide as Hname.
    + subst k. split.
      * intros [= ->]. by right.
      * intros [Hin|[= ->]]; [|done].
        exfalso. apply (Hk name); [|apply list_elem_of_here].
        apply list_elem_of_fmap. by exists (name, x).
    + rewrite IH by done. split; [by left|].
      intros [?|[= ? ?]]; [done|]. by subst.
Qed.

Lemma tagCounts_snoc ms m :
  tagCounts (ms ++ [m])
  = match labels m !! "tag" with
    | Some t => <[t := value m]> (tagCounts ms)
    | None => tagCounts ms
    end.
Proof. unfold tagCounts. by rewrite foldl_app. Qed.

Lemma tagCounts_sample_of entries name :
  tagCounts (sample_of <$> entries) !! name
  = of_count <$> last_write name entries.
Proof.
  induction entries as [|[tag count] entries IH] using rev_ind; [done|].
  rewrite fmap_app. simpl. rewrite tagCounts_snoc, last_write_snoc. simpl.
  rewrite lookup_singleton_eq, lookup_insert. by case_decide.
Qed.

Lemma tagCounts_entries (queueCount : gmap string N) entries :
  entries ≡ₚ map_to_list queueCount →
  tagCounts (sample_of <$> entries) = of_count <$> queueCount.
Proof.
  intros Hperm. apply map_eq. intros name.
  rewrite tagCounts_sample_of, lookup_fmap. f_equal.
  apply option_eq. intros count.
  rewrite last_write_elem.
  - by rewrite Hperm, elem_of_map_to_list.
  - rewrite Hperm. apply NoDup_fst_map_to_list.
Qed.

Lemma metric_name_ok_trimStart name :
  metric_name_ok name → metric_name_ok (trimStart name).
Proof.
  intros (Hl & Hr & Hn & Hhash & Hname).
  split_and!; try (by apply trimStart_notin).
  - by rewrite trimStart_idem.
  - by rewrite trim_trimStart.
Qed.

(** A round trip needs more than the claim asks of a tag: [}] must not occur
    in it either. Rendering a counter mapping whose tags have no double
    quote and no [}] and no line break, under a metric name that is read
    back, and parsing the text back gives the samples of its entries, in
    order, under the trimmed name. *)
Lemma render_parse_entries name entries :
  metric_name_ok name →
  entries ≠ [] →
  Forall (λ e : string * N,
            (dquote ∉ chars (e.1)) ∧ (rbrace ∉ chars (e.1))
            ∧ (newline ∉ chars (e.1))) entries →
  parseMetricLines (render name entries)
  = Ok {[ trim name := sample_of <$> entries ]}.
Proof.
  intros Hname Hne Hall. unfold parseMetricLines.
  destruct entries as [|[tag count] entries]; [done|].
  pose proof (metric_name_ok_trimStart name Hname)
    as (Hl' & Hr' & _ & Hhash' & Hname').
  destruct Hname as (Hl & Hr & Hn & Hhash & Hname).
  apply Forall_cons in Hall as [(Hq & Hrt & Hnt) Hall].
  rewrite render_lines; [|done|].
  2: { constructor; [done|]. eapply Forall_impl; [exact Hall|].
       by intros e (_ & _ & ?). }
  simpl for_of. rewrite parseLine_rendered by done. simpl bind.
  rewrite for_of_parseLine_rendered; [|done..|].
  2: { eapply Forall_impl; [exact Hall|]. by intros e (? & ? & _). }
  f_equal. rewrite trim_trimStart.
  change (foldl ?f (pushed ?k (sample_of ?e) ∅) entries)
    with (foldl f ∅ (e :: entries)).
  rewrite foldl_pushed_sample_of, foldl_pushed_nonempty by done.
  by rewrite lookup_empty, insert_empty.
Qed.

Lemma samples_singleton name (ms : list Metric) :
  samples name {[ trim name := ms ]} = ms.
Proof. unfold samples. by rewrite lookup_singleton_eq. Qed.

(** C8, as the code has it. For a counter mapping whose tags contain no
    double quote, comma, white space or closing brace (and whose counts are
    integers a double holds exactly), under a metric name that is read
    back (no brace or line break in it, no [#] at its head, and not the
    name of a member of [Object.prototype]): the text rendered from its
    entries, in whatever order they are enumerated, parses back without
    error, and the samples of the metric give the original tag to count
    mapping. *)
Theorem render_parse_round_trip
    (name : string) (queueCount : gmap string N) (entries : list (string * N)) :
  metric_name_ok name →
  entries ≡ₚ map_to_list queueCount →
  map_Forall (λ tag count,
                plain_tag tag ∧ (rbrace ∉ chars tag) ∧ safe_integer count)
             queueCount →
  ∃ result,
    parseMetricLines (render name entries) = Ok result ∧
    tagCounts (samples name result) = of_count <$> queueCount.
Proof.
  intros Hname Hperm Htags.
  destruct (decide (entries = [])) as [->|Hne].
  - symmetry in Hperm. apply Permutation_nil_r in Hperm.
    apply map_to_list_empty_iff in Hperm as ->.
    exists {[ "" := [ {| labels := ∅; value := NaN |} ] ]}.
    split; [vm_compute; reflexivity|].
    rewrite fmap_empty. unfold samples.
    destruct (decide (trim name = "")) as [->|Hname'].
    + vm_compute. reflexivity.
    + by rewrite lookup_singleton_ne.
  - exists {[ trim name := sample_of <$> entries ]}. split.
    + apply render_parse_entries; [done..|].
      apply Forall_forall. intros [tag count] Hin.
      rewrite Hperm in Hin. apply elem_of_map_to_list in Hin.
      destruct (Htags _ _ Hin) as (Hplain & Hbrace & _). simpl.
      split_and!; [by apply plain_tag_no_quote|done
                  |by apply plain_tag_no_newline].
    + rewrite samples_singleton. by apply tagCounts_entries.
Qed.

Lemma metric_name_ok_queue : metric_name_ok "queue".
Proof.
  unfold metric_name_ok. split_and!; [..|reflexivity|]; by refute_elem.
Qed.

Lemma render_parse_round_trip_witness :
  ∃ result,
    parseMetricLines (render "queue" (map_to_list queue_counts)) = Ok result ∧
    tagCounts (samples "queue" result) = of_count <$> queue_counts.
Proof.
  apply (render_parse_round_trip "queue" queue_counts (map_to_list queue_counts)).
  - apply metric_name_ok_queue.
  - reflexivity.
  - unfold queue_counts. apply map_Forall_insert_2; [|apply map_Forall_singleton];
      (split_and!;
       [ unfold plain_tag; simpl; repeat constructor; done
       | vm_compute; intros H;
         repeat (apply elem_of_cons in H as [H|H]; [done|]);
         by apply elem_of_nil in H
       | reflexivity ]).
Defined.

(** C8, as the claim states it, fails: the tag [a}b] has no double quote,
    comma or white space, yet its rendered line is cut at the brace inside
    the tag, and the samples parsed back give no entry for the tag. *)
Lemma closing_brace_breaks_round_trip :
  plain_tag "a}b" ∧
  ∃ result,
    parseMetricLines (render "m" (map_to_list braced_counts)) = Ok result ∧
    samples "m" result = [ {| labels := ∅; value := NaN |} ] ∧
    tagCounts (samples "m" result) ≠ of_count <$> braced_counts.
Proof.
  split.
  - unfold plain_tag. simpl. repeat constructor; done.
  - exists {[ "m" := [ {| labels := ∅; value := NaN |} ] ]}.
    split_and!; [vm_compute; reflexivity..|].
    intros Heq. apply (f_equal (λ m, m !! "a}b")) in Heq.
    vm_compute in Heq. discriminate.
Qed.

(** * Further properties *)

(** ** The label parser: separators, names and errors *)

Lemma chars_join_chars cs : chars (join_chars cs) = cs.
Proof. apply list_ascii_of_string_of_list_ascii. Qed.

Lemma join_chars_chars s : join_chars (chars s) = s.
Proof. apply string_of_list_ascii_of_string. Qed.

Lemma chars_cons c s : chars (String c s) = c :: chars s.
Proof. reflexivity. Qed.

Lemma for_of_Throw_app {S X} (body : S → X → completion S) xs ys s e :
  for_of body xs s = Throw e → for_of body (xs ++ ys) s = Throw e.
Proof. intros H. by rewrite for_of_app, H. Qed.

Lemma scan_app a b :
  scan (a +:+ b) = do v <- scan a; for_of step (chars b) v.
Proof. unfold scan. by rewrite chars_app, for_of_app. Qed.

Lemma scan_separators cs a q log :
  Forall (λ c, c = space ∨ c = comma) cs →
  for_of step cs
    {| attrs := a; state := INITIAL; quote := q; attrBuf := []; valBuf := [];
       committed := log |}
  = Ok {| attrs := a; state := INITIAL; quote := q; attrBuf := [];
          valBuf := []; committed := log |}.
Proof.
  induction 1 as [|c cs Hc _ IH]; simpl; [done|].
  unfold step at 1. simpl. by rewrite bool_decide_eq_true_2.
Qed.

(** Reading a name: from [INITIAL] the characters of a well-formed name are
    all collected in [attrBuf]. *)
Lemma scan_name_tail cs a q ab log :
  Forall (λ c, c ≠ equals ∧ c ≠ space) cs →
  for_of step cs
    {| attrs := a; state := READING_ATTR; quote := q; attrBuf := ab;
       valBuf := []; committed := log |}
  = Ok {| attrs := a; state := READING_ATTR; quote := q; attrBuf := ab ++ cs;
          valBuf := []; committed := log |}.
Proof.
  intros Hcs. revert ab.
  induction Hcs as [|c cs [Hc1 Hc2] _ IH]; intros ab; simpl.
  - by rewrite app_nil_r.
  - unfold step at 1. simpl.
    rewrite !bool_decide_eq_false_2 by done. simpl.
    unfold push_attr. simpl. rewrite IH. by rewrite <- app_assoc.
Qed.

Lemma scan_name cs a q log :
  name_chars_ok cs →
  for_of step cs
    {| attrs := a; state := INITIAL; quote := q; attrBuf := []; valBuf := [];
       committed := log |}
  = Ok {| attrs := a; state := READING_ATTR; quote := q; attrBuf := cs;
          valBuf := []; committed := log |}.
Proof.
  destruct cs as [|c cs]; [done|]. intros [(Hc1 & Hc2 & Hc3) Hcs]. simpl.
  unfold step at 1. simpl.
  rewrite bool_decide_eq_false_2 by (by intros [?|?]).
  rewrite bool_decide_eq_false_2 by done. simpl.
  unfold push_attr, set_state. simpl. by rewrite scan_name_tail.
Qed.

Lemma scan_bare_tail cs a q ab vb log :
  Forall (λ c, c ≠ space ∧ c ≠ comma) cs →
  for_of step cs
    {| attrs := a; state := READING_VALUE; quote := q; attrBuf := ab;
       valBuf := vb; committed := log |}
  = Ok {| attrs := a; state := READING_VALUE; quote := q; attrBuf := ab;
          valBuf := vb ++ cs; committed := log |}.
Proof.
  intros Hcs. revert vb.
  induction Hcs as [|c cs [Hc1 Hc2] _ IH]; intros vb; simpl.
  - by rewrite app_nil_r.
  - unfold step at 1. simpl.
    rewrite bool_decide_eq_false_2 by (by intros [?|?]). simpl.
    unfold push_val. simpl. rewrite IH. by rewrite <- app_assoc.
Qed.

(** X1. A fragment of spaces and commas only, the empty fragment among
    them, is accepted and gives no label. *)
Theorem separators_give_no_label (fragment : string) :
  separators_only fragment → parseAttributes fragment = Ok ∅.
Proof.
  intros Hsep. unfold parseAttributes, run, scan, init.
  by rewrite scan_separators.
Qed.

Lemma separators_give_no_label_witness : parseAttributes " , ,, " = Ok ∅.
Proof.
  apply (separators_give_no_label " , ,, ").
  unfold separators_only. simpl. repeat constructor; by (left + right).
Defined.

(** X2. An [=] where a name should start is refused, whatever follows it:
    after any separators, [=] throws 'Unexpected "=" without attribute
    name'. *)
Theorem equals_without_name_throws (separators rest : string) :
  separators_only separators →
  parseAttributes (separators +:+ String equals rest) = Throw UnexpectedEquals.
Proof.
  intros Hsep. unfold parseAttributes, run. rewrite scan_app.
  unfold scan, init. rewrite scan_separators by done. simpl. reflexivity.
Qed.

Lemma equals_without_name_throws_witness :
  parseAttributes (", " +:+ String equals "b=1") = Throw UnexpectedEquals.
Proof.
  apply (equals_without_name_throws ", " "b=1").
  unfold separators_only. simpl. repeat constructor; by (left + right).
Defined.

(** X3. A space right after a name (before any [=]) is refused, whatever
    follows it: 'Space in attribute name'. *)
Theorem space_after_name_throws (name rest : string) :
  label_name_ok name →
  parseAttributes (name +:+ String space rest) = Throw SpaceInAttributeName.
Proof.
  intros Hname. unfold parseAttributes, run. rewrite scan_app.
  unfold scan, init. rewrite scan_name by done. simpl. reflexivity.
Qed.

Lemma space_after_name_throws_witness :
  parseAttributes ("type" +:+ String space "=1") = Throw SpaceInAttributeName.
Proof.
  apply (space_after_name_throws "type" "=1").
  unfold label_name_ok. simpl. repeat constructor; done.
Defined.

(** X4. A fragment that stops after a name, or after the [=] of a name and
    any spaces, is refused: 'Input ended unexpectedly'. *)
Theorem name_without_value_throws (name spaces : string) :
  label_name_ok name →
  Forall (λ c, c = space) (chars spaces) →
  parseAttributes name = Throw InputEndedUnexpectedly ∧
  parseAttributes (name +:+ String equals spaces) = Throw InputEndedUnexpectedly.
Proof.
  intros Hname Hspaces. split.
  - unfold parseAttributes, run, scan, init. by rewrite scan_name.
  - unfold parseAttributes, run. rewrite scan_app.
    unfold scan, init. rewrite scan_name by done. simpl.
    unfold step at 1. simpl. unfold set_state. simpl.
    assert (∀ cs ab,
              Forall (λ c, c = space) cs →
              for_of step cs
                {| attrs := ∅; state := AFTER_SEP; quote := dquote;
                   attrBuf := ab; valBuf := []; committed := [] |}
              = Ok {| attrs := ∅; state := AFTER_SEP; quote := dquote;
                      attrBuf := ab; valBuf := []; committed := [] |}) as Hskip.
    { intros cs ab. induction 1 as [|c cs -> _ IH]; simpl; [done|].
      unfold step at 1. simpl. done. }
    by rewrite Hskip.
Qed.

Lemma name_without_value_throws_witness :
  parseAttributes "type" = Throw InputEndedUnexpectedly ∧
  parseAttributes ("type" +:+ String equals "  ") = Throw InputEndedUnexpectedly.
Proof.
  apply (name_without_value_throws "type" "  ").
  - unfold label_name_ok. simpl. repeat constructor; done.
  - simpl. repeat constructor.
Defined.

(** ** The label parser: what the buffers and the labels hold *)

Lemma name_chars_ok_snoc cs c :
  name_chars_ok cs → c ≠ equals → c ≠ space → name_chars_ok (cs ++ [c]).
Proof.
  destruct cs as [|c0 cs]; [done|]. intros [H0 Hcs] ? ?. split; [done|].
  apply Forall_app. split; [done|]. by apply Forall_singleton.
Qed.

Lemma map_Forall_assign {V} (P : string → V → Prop) key v own :
  P key v → map_Forall P own → map_Forall P (assign key v own).
Proof.
  intros Hkey Hown. unfold assign. case_bool_decide; [done|].
  by apply map_Forall_insert_2.
Qed.

Lemma assign_union_l {V} key (v : V) own other :
  assign key v (own ∪ other) = assign key v own ∪ other.
Proof. unfold assign. case_bool_decide; [done|]. apply insert_union_l. Qed.

Lemma commitAttribute_ok v :
  name_chars_ok (attrBuf v) →
  map_Forall (λ name _, label_name_ok name) (attrs v) →
  vars_ok (commitAttribute v).
Proof.
  intros Hname Hattrs. unfold vars_ok. simpl. split; [done|].
  apply map_Forall_assign; [|done].
  unfold label_name_ok. by rewrite chars_join_chars.
Qed.

Lemma step_ok v c v' : vars_ok v → step v c = Ok v' → vars_ok v'.
Proof.
  unfold vars_ok, step. intros [Hbufs Hattrs].
  destruct (state v) eqn:Hstate; repeat case_bool_decide; intros ?;
    simplify_eq; simpl; rewrite ?Hstate; simpl.
  all: try (by apply commitAttribute_ok; intuition).
  all: try done.
  all: destruct_and?; split_and!; try done.
  all: try (by destruct (valBuf v)).
  all: try (by apply name_chars_ok_snoc).
  match goal with Hbuf : attrBuf v = [] |- _ => rewrite Hbuf end.
  simpl. split; [naive_solver|constructor].
Qed.

Lemma for_of_step_ok cs v v' :
  vars_ok v → for_of step cs v = Ok v' → vars_ok v'.
Proof.
  revert v. induction cs as [|c cs IH]; intros v Hv; simpl.
  - by intros [= <-].
  - destruct (step v c) as [w|e] eqn:Hstep; simpl; [|done].
    apply IH. by eapply step_ok.
Qed.

Lemma scan_ok input v : scan input = Ok v → vars_ok v.
Proof.
  apply for_of_step_ok. split; [done|]. simpl. apply map_Forall_empty.
Qed.

Lemma run_ok input v : run input = Ok v → vars_ok v.
Proof.
  unfold run. destruct (scan input) as [w|e] eqn:Hscan; simpl; [|done].
  apply scan_ok in Hscan. unfold finish.
  repeat case_bool_decide; intros ?; simplify_eq; [|done].
  destruct Hscan as [Hbufs Hattrs]. rewrite H in Hbufs.
  apply commitAttribute_ok; [by destruct Hbufs|done].
Qed.

Lemma label_name_ok_spelled name :
  label_name_ok name →
  name ≠ "" ∧ (equals ∉ chars name) ∧ (space ∉ chars name).
Proof.
  unfold label_name_ok. destruct name as [|c name]; [done|].
  rewrite chars_cons. intros [(H1 & H2 & H3) Hrest].
  rewrite Forall_forall in Hrest.
  split_and!; [done| |]; rewrite not_elem_of_cons; (split; [done|]);
    intros Hin; by destruct (Hrest _ Hin).
Qed.

(** X5. Every name in the labels [parseAttributes] returns is non-empty and
    contains no [=] and no space. *)
Theorem returned_names_are_well_formed
    (input : string) (labels : Labels) (name value : string) :
  parseAttributes input = Ok labels →
  labels !! name = Some value →
  name ≠ "" ∧ (equals ∉ chars name) ∧ (space ∉ chars name).
Proof.
  intros (v & Hrun & <-)%parseAttributes_Ok Hlookup.
  apply run_ok in Hrun as [_ Hattrs].
  apply label_name_ok_spelled. by eapply Hattrs.
Qed.

Lemma returned_names_are_well_formed_witness :
  "b" ≠ "" ∧ (equals ∉ chars "b") ∧ (space ∉ chars "b").
Proof.
  apply (returned_names_are_well_formed "a=1,b='x y'"
           (<["b" := "x y"]> {[ "a" := "1" ]}) "b" "x y");
    vm_compute; reflexivity.
Defined.

(** ** The label parser: well-formed lists of labels *)

Lemma scan_written item a q0 log :
  written_ok item →
  for_of step (chars (written_label item))
    {| attrs := a; state := INITIAL; quote := q0; attrBuf := [];
       valBuf := []; committed := log |}
  = Ok match item.1 with
       | None =>
           {| attrs := a; state := READING_VALUE; quote := q0;
              attrBuf := chars (item.2.1); valBuf := chars (item.2.2);
              committed := log |}
       | Some quoteChar =>
           {| attrs := assign item.2.1 item.2.2 a; state := INITIAL;
              quote := quoteChar; attrBuf := []; valBuf := [];
              committed := log ++ [(item.2.1, item.2.2)] |}
       end.
Proof.
  destruct item as [style [name value]]. unfold written_ok, written_label.
  simpl. intros [Hname Hvalue]. destruct style as [quoteChar|].
  - destruct Hvalue as [Hquote Hnotin].
    rewrite chars_app, !chars_cons, chars_app, chars_cons.
    rewrite for_of_app, scan_name by done. simpl.
    unfold step at 1. simpl. unfold set_state. simpl.
    unfold step at 1. simpl.
    rewrite bool_decide_eq_true_2 by done.
    unfold set_quote, set_state. simpl.
    rewrite for_of_app, step_in_quote by done. simpl.
    rewrite bool_decide_eq_true_2 by done.
    unfold commitAttribute. simpl. by rewrite !join_chars_chars.
  - unfold bare_value_ok in Hvalue.
    rewrite chars_app, !chars_cons.
    destruct (chars value) as [|c cs]; [done|].
    destruct Hvalue as [(Hc1 & Hc2 & Hc3) Hcs].
    rewrite for_of_app, scan_name by done. simpl.
    unfold step at 1. simpl. unfold set_state. simpl.
    unfold step at 1. simpl.
    rewrite bool_decide_eq_false_2 by (by intros [?|?]).
    rewrite bool_decide_eq_true_2 by done.
    unfold push_val, set_state. simpl.
    by rewrite scan_bare_tail.
Qed.

(** A written label followed by the joining comma leaves the parser in
    [INITIAL] with the label stored. *)
Lemma scan_written_comma item a q0 log :
  written_ok item →
  ∃ q1,
    for_of step (chars (written_label item) ++ [comma])
      {| attrs := a; state := INITIAL; quote := q0; attrBuf := [];
         valBuf := []; committed := log |}
    = Ok {| attrs := assign item.2.1 item.2.2 a; state := INITIAL;
            quote := q1; attrBuf := []; valBuf := [];
            committed := log ++ [(item.2.1, item.2.2)] |}.
Proof.
  intros Hitem. rewrite for_of_app, scan_written by done.
  destruct item as [[quoteChar|] [name value]]; simpl.
  - by exists quoteChar.
  - exists q0. unfold commitAttribute. simpl. by rewrite !join_chars_chars.
Qed.

Lemma finish_written item a q0 log :
  written_ok item →
  ∃ q1,
    (do w <- for_of step (chars (written_label item))
               {| attrs := a; state := INITIAL; quote := q0; attrBuf := [];
                  valBuf := []; committed := log |};
     finish w)
    = Ok {| attrs := assign item.2.1 item.2.2 a; state := INITIAL;
            quote := q1; attrBuf := []; valBuf := [];
            committed := log ++ [(item.2.1, item.2.2)] |}.
Proof.
  intros Hitem. rewrite scan_written by done.
  destruct item as [[quoteChar|] [name value]]; simpl.
  - by exists quoteChar.
  - exists q0. unfold finish. simpl.
    unfold commitAttribute. simpl. by rewrite !join_chars_chars.
Qed.

Lemma written_labels_cons item item' items :
  written_labels (item :: item' :: items)
  = written_label item +:+ String comma (written_labels (item' :: items)).
Proof. reflexivity. Qed.

Lemma run_written_labels items a q0 log :
  Forall written_ok items →
  ∃ q1 log1,
    (do w <- for_of step (chars (written_labels items))
               {| attrs := a; state := INITIAL; quote := q0; attrBuf := [];
                  valBuf := []; committed := log |};
     finish w)
    = Ok {| attrs := foldl (λ acc pair, assign pair.1 pair.2 acc) a
                           (snd <$> items);
            state := INITIAL; quote := q1; attrBuf := []; valBuf := [];
            committed := log1 |}.
Proof.
  intros Hitems. revert a q0 log.
  induction Hitems as [|item items Hitem Hitems IH]; intros a q0 log.
  - by exists q0, log.
  - destruct items as [|item' items].
    + destruct (finish_written item a q0 log Hitem) as [q1 Hfin].
      exists q1, (log ++ [(item.2.1, item.2.2)]). exact Hfin.
    + rewrite written_labels_cons, chars_app, chars_cons.
      change (?l ++ comma :: ?r) with (l ++ [comma] ++ r).
      rewrite app_assoc, for_of_app.
      destruct (scan_written_comma item a q0 log Hitem) as [q1 ->].
      simpl bind.
      destruct (IH (assign item.2.1 item.2.2 a) q1
                   (log ++ [(item.2.1, item.2.2)])) as (q2 & log2 & ->).
      by exists q2, log2.
Qed.

(** X6. A list of well-formed labels, each written [name=value] or between
    single or double quotes, joined by commas, parses to the labels
    assigned in order: a later label of the same name replaces the earlier
    one, and a label named [__proto__] is accepted and stores nothing. An
    unquoted value may start with a comma; a quoted one may hold spaces,
    commas and the other quote character. *)
Theorem written_labels_parse (items : list (option ascii * (string * string))) :
  Forall written_ok items →
  parseAttributes (written_labels items) = Ok (labels_of (snd <$> items)).
Proof.
  intros Hitems. unfold parseAttributes, run, scan, init.
  destruct (run_written_labels items ∅ dquote [] Hitems) as (q1 & log1 & ->).
  reflexivity.
Qed.

Lemma written_labels_parse_witness :
  parseAttributes
    (written_labels [ (None, ("a", "1")); (Some squote, ("__proto__", "x, y"));
                      (Some dquote, ("a", "it's")) ])
  = Ok (labels_of [ ("a", "1"); ("__proto__", "x, y"); ("a", "it's") ]).
Proof.
  apply (written_labels_parse
           [ (None, ("a", "1")); (Some squote, ("__proto__", "x, y"));
             (Some dquote, ("a", "it's")) ]).
  assert (∀ name, name_chars_ok (chars name) → label_name_ok name) as Hname
    by done.
  apply Forall_cons; split; [|apply Forall_cons; split;
                               [|apply Forall_cons; split; [|constructor]]].
  - split; [apply Hname|unfold bare_value_ok]; simpl; repeat constructor; done.
  - split; [apply Hname; simpl; repeat constructor; done|].
    split; [by right|]. simpl. intros H.
    repeat (apply elem_of_cons in H as [H|H]; [done|]). by apply elem_of_nil in H.
  - split; [apply Hname; simpl; repeat constructor; done|].
    split; [by left|]. simpl. intros H.
    repeat (apply elem_of_cons in H as [H|H]; [done|]). by apply elem_of_nil in H.
Defined.

Example written_proto_label_is_dropped :
  labels_of [ ("a", "1"); ("__proto__", "x, y"); ("a", "it's") ]
  = {[ "a" := "it's" ]}.
Proof. vm_compute. reflexivity. Qed.

(** ** The label parser: resuming after a complete prefix *)

Lemma step_resumes A v v' c :
  resumes_from A v v' →
  match step v c, step v' c with
  | Ok w, Ok w' => resumes_from A w w'
  | Throw e, Throw e' => e = e'
  | _, _ => False
  end.
Proof.
  unfold resumes_from, step. intros (Hstate & Hab & Hvb & Hattrs & Hquote).
  rewrite Hstate.
  destruct (state v) eqn:Hst; try rewrite (Hquote eq_refl);
    repeat case_bool_decide; simpl; rewrite ?Hstate, ?Hst, ?Hab, ?Hvb, ?Hattrs;
    try done; split_and!; try done.
  all: by rewrite assign_union_l.
Qed.

Lemma for_of_step_resumes A cs v v' :
  resumes_from A v v' →
  match for_of step cs v, for_of step cs v' with
  | Ok w, Ok w' => resumes_from A w w'
  | Throw e, Throw e' => e = e'
  | _, _ => False
  end.
Proof.
  revert v v'. induction cs as [|c cs IH]; intros v v' Hv; simpl; [done|].
  pose proof (step_resumes A v v' c Hv) as Hstep.
  destruct (step v c), (step v' c); simpl; try done. by apply IH.
Qed.

Lemma finish_resumes A v v' :
  resumes_from A v v' →
  match finish v, finish v' with
  | Ok w, Ok w' => attrs w' = attrs w ∪ A
  | Throw e, Throw e' => e = e'
  | _, _ => False
  end.
Proof.
  unfold resumes_from, finish. intros (Hstate & Hab & Hvb & Hattrs & Hquote).
  rewrite Hstate.
  repeat case_bool_decide; simpl; rewrite ?Hab, ?Hvb, ?Hattrs; try done.
  by rewrite assign_union_l.
Qed.

(** X7. When the parser is back in [INITIAL] at the end of a prefix [a]
    (after a separator or a closing quote), the rest [b] is parsed as if on
    its own: the fragment [a b] is refused exactly when [b] is, with the
    same error, and otherwise gives the labels of [b] over those of [a]. *)
Theorem parse_resumes_after_prefix (a b : string) (va : Vars) :
  scan a = Ok va →
  state va = INITIAL →
  parseAttributes (a +:+ b)
  = completion_map (λ B, B ∪ attrs va) (parseAttributes b).
Proof.
  intros Hscan Hstate.
  assert (resumes_from (attrs va) init va) as Hres.
  { apply scan_ok in Hscan as [Hbufs _]. rewrite Hstate in Hbufs.
    destruct Hbufs as [Hab Hvb]. unfold resumes_from. simpl.
    rewrite Hstate, Hab, Hvb. split_and!; try done.
    by rewrite (left_id_L ∅ (∪)). }
  unfold parseAttributes, run. rewrite scan_app, Hscan. simpl.
  unfold scan.
  pose proof (for_of_step_resumes (attrs va) (chars b) init va Hres) as Hloop.
  destruct (for_of step (chars b) init) as [w|e],
           (for_of step (chars b) va) as [w'|e']; simpl; try done.
  - pose proof (finish_resumes (attrs va) w w' Hloop) as Hfin.
    destruct (finish w), (finish w'); simpl; try done; congruence.
  - congruence.
Qed.

Lemma parse_resumes_after_prefix_witness :
  parseAttributes ("a='1' ,a=2," +:+ "b=3")
  = completion_map (λ B, B ∪ attrs after_two_labels) (parseAttributes "b=3").
Proof.
  apply (parse_resumes_after_prefix "a='1' ,a=2," "b=3" after_two_labels);
    vm_compute; reflexivity.
Defined.

(** ** The exposition parser: lines, comments and errors *)

(** X8. A line [name{fragment}rest], with no brace in [name] and no closing
    brace in [fragment], is cut at the two braces: the fragment goes to
    [parseAttributes] (whose error is passed on), the sample is pushed
    under the trimmed name (which throws the [TypeError] when the result
    has no array of that name and [Object.prototype] has a member of it),
    and its value is [parseFloat] of the trimmed rest. *)
Theorem labelled_line_is_cut_at_braces
    (result : Result) (name fragment rest : string) :
  startsWith "#" (name +:+ String lbrace (fragment +:+ String rbrace rest))
  = false →
  lbrace ∉ chars name → rbrace ∉ chars name → rbrace ∉ chars fragment →
  parseLine result (name +:+ String lbrace (fragment +:+ String rbrace rest))
  = do labels <- parseAttributes (trim fragment);
    push_metric (trim name)
      {| labels := labels; value := parseFloat (trim rest) |} result.
Proof. apply parseLine_cut. Qed.

Lemma labelled_line_is_cut_at_braces_witness :
  parseLine ∅ (" up " +:+ String lbrace (" a=1 " +:+ String rbrace " 2e3 x"))
  = do labels <- parseAttributes (trim " a=1 ");
    push_metric (trim " up ")
      {| labels := labels; value := parseFloat (trim " 2e3 x") |} ∅.
Proof.
  apply (labelled_line_is_cut_at_braces ∅ " up " " a=1 " " 2e3 x").
  - reflexivity.
  - refute_elem.
  - refute_elem.
  - refute_elem.
Defined.

Lemma parseLine_comment result line :
  startsWith "#" line = true → parseLine result line = Ok result.
Proof. intros H. unfold parseLine. by rewrite H. Qed.

Lemma parseLine_data result line :
  startsWith "#" line = false →
  parseLine result line
  = do labels <- parseAttributes (labelString_of line);
    push_metric (metricName_of line)
      {| labels := labels; value := parseFloat (valueText_of line) |}
      result.
Proof. intros H. unfold parseLine. by rewrite H. Qed.

Lemma pushed_no_inherited name metric (result : Result) :
  ¬ inherited name →
  map_Forall (λ key _, ¬ inherited key) result →
  map_Forall (λ key _, ¬ inherited key) (pushed name metric result).
Proof. intros Hname Hresult. by apply map_Forall_insert_2. Qed.

Lemma for_of_parseLine_Throw lines result e :
  map_Forall (λ key _, ¬ inherited key) result →
  for_of parseLine lines result = Throw e ↔
  ∃ before line after,
    lines = before ++ line :: after ∧
    Forall line_parses before ∧
    line_throws line e.
Proof.
  revert result. induction lines as [|l lines IH]; intros result Hresult; simpl.
  - split; [done|]. intros (before & line & after & Heq & _).
    by destruct before.
  - destruct (startsWith "#" l) eqn:Hcomment.
    + rewrite parseLine_comment by done. simpl. rewrite IH by done. split.
      * intros (before & line & after & -> & Hbefore & Hline).
        exists (l :: before), line, after. split_and!; try done.
        constructor; [by left|done].
      * intros (before & line & after & Heq & Hbefore & Hline).
        destruct before as [|l' before]; simplify_eq/=.
        -- destruct Hline as [? _]. congruence.
        -- apply Forall_cons in Hbefore as [_ Hbefore]. by eauto 10.
    + rewrite parseLine_data by done.
      destruct (parseAttributes (labelString_of l)) as [labels|e'] eqn:Hl;
        simpl.
      * destruct (decide (inherited (metricName_of l))) as [Hname|Hname].
        -- rewrite push_metric_inherited; [|done|].
           2: { destruct (result !! metricName_of l) eqn:Hown; [|done].
                by destruct (Hresult _ _ Hown). }
           simpl. split.
           ++ intros [= <-]. exists [], l, lines. split_and!; try done.
              split; [done|]. right. by eauto.
           ++ intros (before & line & after & Heq & Hbefore & Hline).
              destruct before as [|l' before]; simplify_eq/=.
              ** destruct Hline as [_ [?|(_ & _ & ->)]]; [congruence|done].
              ** apply Forall_cons in Hbefore as [[?|[_ ?]] _];
                   [congruence|done].
        -- rewrite push_metric_ok by done. simpl.
           rewrite IH by (by apply pushed_no_inherited). split.
           ++ intros (before & line & after & -> & Hbefore & Hline).
              exists (l :: before), line, after. split_and!; try done.
              constructor; [right; by eauto|done].
           ++ intros (before & line & after & Heq & Hbefore & Hline).
              destruct before as [|l' before]; simplify_eq/=.
              ** destruct Hline as [_ [?|(_ & ? & _)]]; [congruence|done].
              ** apply Forall_cons in Hbefore as [_ Hbefore]. by eauto 10.
      * split.
        -- intros [= ->]. exists [], l, lines. split_and!; try done.
           split; [done|by left].
        -- intros (before & line & after & Heq & Hbefore & Hline).
           destruct before as [|l' before]; simplify_eq/=.
           ++ destruct Hline as [_ [?|([? ?] & _)]]; congruence.
           ++ apply Forall_cons in Hbefore as [[?|[[? ?] _]] _]; congruence.
Qed.

(** X9. [parseMetricLines] throws exactly when some line that is no comment
    has a label fragment [parseAttributes] refuses, or has a label fragment
    that parses and a metric name that is the name of a member of
    [Object.prototype]; it throws the error of the first such line (that of
    [parseAttributes], or the [TypeError] of [push]) and returns no sample
    at all, those of the lines before included. A value that is no number
    never makes it throw. *)
Theorem parse_throws_at_first_bad_line (input : string) (e : ParseError) :
  parseMetricLines input = Throw e ↔
  ∃ before line after,
    split newline (trim input) = before ++ line :: after ∧
    Forall line_parses before ∧
    line_throws line e.
Proof.
  unfold parseMetricLines. apply for_of_parseLine_Throw, map_Forall_empty.
Qed.






(** X11. An input of white space only, the empty input among them, does not
    give an empty result: it is read as one line without braces, and gives
    one sample without labels, with value [NaN], under the empty name. *)
Theorem blank_input_gives_one_sample (input : string) :
  trim input = "" →
  parseMetricLines input = Ok {[ "" := [blank_sample] ]}.
Proof.
  intros Hblank. unfold parseMetricLines. rewrite Hblank.
  vm_compute. reflexivity.
Qed.

Lemma blank_input_gives_one_sample_witness :
  parseMetricLines (String newline "  ") = Ok {[ "" := [blank_sample] ]}.
Proof.
  apply (blank_input_gives_one_sample (String newline "  ")). reflexivity.
Defined.

(** X12. The text rendered from a non-empty list of counter entries parses
    back to exactly one metric, named by the trimmed metric name, whose
    samples are those of the entries in the order written, as long as no
    tag holds a double quote, a closing brace or a line break, the counts
    are integers a double holds exactly, and the metric name is one that is
    read back (no brace or line break in it, no [#] at its head, and not
    the name of a member of [Object.prototype]); spaces and commas inside a
    tag are kept. *)
Theorem rendered_text_parses_in_order
    (name : string) (entries : list (string * N)) :
  metric_name_ok name →
  entries ≠ [] →
  Forall (λ e : string * N,
            (dquote ∉ chars (e.1)) ∧ (rbrace ∉ chars (e.1))
            ∧ (newline ∉ chars (e.1)) ∧ safe_integer (e.2)) entries →
  parseMetricLines (render name entries)
  = Ok {[ trim name := sample_of <$> entries ]}.
Proof.
  intros Hname Hne Hall. apply render_parse_entries; [done..|].
  eapply Forall_impl; [exact Hall|]. by intros e (? & ? & ? & _).
Qed.

Lemma rendered_text_parses_in_order_witness :
  parseMetricLines (render " queue" [("a, b", 2%N); ("a, b", 7%N)])
  = Ok {[ trim " queue" := sample_of <$> [("a, b", 2%N); ("a, b", 7%N)] ]}.
Proof.
  apply (rendered_text_parses_in_order " queue" [("a, b", 2%N); ("a, b", 7%N)]).
  - unfold metric_name_ok. split_and!; [..|reflexivity|]; by refute_elem.
  - done.
  - apply Forall_cons; split; [|apply Forall_cons; split; [|constructor]];
      simpl; (split_and!; [by refute_elem..|reflexivity]).
Defined.

(** ** The tag counter: what is counted *)

Lemma prefix_spec t s : String.prefix t s = true ↔ ∃ b, s = t +:+ b.
Proof.
  revert s. induction t as [|c t IH]; intros s.
  - split; [|by destruct s]. intros _. by exists s.
  - destruct s as [|x s]; simpl.
    + split; [done|]. by intros [b ?].
    + destruct (ascii_dec c x) as [->|Hne].
      * rewrite IH. split; intros [b Hb]; exists b.
        -- by rewrite app_cons, Hb.
        -- rewrite app_cons in Hb. by simplify_eq.
      * split; [done|]. intros [b Hb]. rewrite app_cons in Hb. by simplify_eq.
Qed.

(** [includes] is the occurrence of [t] somewhere in [s]. *)
Lemma includes_spec t s : includes t s = true ↔ ∃ a b, s = a +:+ t +:+ b.
Proof.
  unfold includes. induction s as [|x s IH].
  - simpl. destruct t as [|c t].
    + split; [|done]. intros _. by exists "", "".
    + split; [done|]. intros (a & b & Hab).
      destruct a; [by rewrite app_cons in Hab|by rewrite app_cons in Hab].
  - cbn [String.index].
    destruct (String.prefix t (String x s)) eqn:Hpre.
    + split; [|done]. intros _.
      apply prefix_spec in Hpre as [b Hb]. by exists "", b.
    + destruct (String.index 0 t s) as [n|].
      * split; [|done]. intros _.
        destruct IH as [(a & b & ->) _]; [done|].
        exists (String x a), b. by rewrite app_cons.
      * split; [done|]. intros ([|c a] & b & Hab).
        -- assert (String.prefix t (String x s) = true) as Htrue
             by (apply prefix_spec; by exists b).
           congruence.
        -- rewrite app_cons in Hab. simplify_eq.
           destruct IH as [_ IH]. by discriminate IH; eauto.
Qed.

Lemma listed_snoc tag tags x :
  listed tag (tags ++ [x])
  = (listed tag tags + if decide (x = tag) then 1 else 0)%nat.
Proof.
  unfold listed. rewrite filter_app, List.length_app, filter_cons, filter_nil.
  by case_decide.
Qed.

Lemma not_inherited_proto tag : ¬ inherited tag → tag ≠ "__proto__".
Proof.
  intros Htag ->. apply Htag. unfold inherited, inherited_names.
  do 10 apply list_elem_of_further. apply list_elem_of_here.
Qed.

Lemma increment_lookup_ne x (queueCount : gmap string Counter) tag :
  x ≠ tag → increment x queueCount !! tag = queueCount !! tag.
Proof.
  intros Hne. unfold increment.
  destruct (queueCount !! x) as [[n|ones]|]; [| |case_bool_decide];
    rewrite lookup_assign; case_bool_decide; try done; by rewrite decide_False.
Qed.

Lemma increment_lookup_eq tag (queueCount : gmap string Counter) c :
  ¬ inherited tag → queueCount !! tag = Count <$> c →
  increment tag queueCount !! tag = Some (Count (default 0 c + 1)%N).
Proof.
  intros Htag Hown. pose proof (not_inherited_proto tag Htag) as Hproto.
  unfold increment. rewrite Hown.
  destruct c as [n|]; simpl; [|rewrite bool_decide_eq_false_2 by done];
    rewrite lookup_assign, bool_decide_eq_false_2, decide_True by done; done.
Qed.

Lemma countTags_lookup tags queueCount m tag c :
  ¬ inherited tag → queueCount !! tag = Count <$> c →
  countTags tags queueCount m !! tag
  = Count <$> (if label_includes tag m
               then match listed tag tags with
                    | O => c
                    | S k => Some (default 0 c + N.of_nat (S k))%N
                    end
               else c).
Proof.
  intros Htag Hown. induction tags as [|x tags IH] using rev_ind.
  - simpl. by destruct (label_includes tag m).
  - unfold countTags in *. rewrite foldl_app, listed_snoc. simpl.
    unfold label_includes in *.
    destruct (labels m !! "tags") as [t|] eqn:Ht; [|done].
    destruct (includes x t) eqn:Hx.
    + destruct (decide (x = tag)) as [->|Hne].
      * rewrite Hx in IH. rewrite Hx.
        erewrite increment_lookup_eq; [|done|exact IH].
        destruct (listed tag tags) as [|k]; simpl; do 2 f_equal; lia.
      * rewrite increment_lookup_ne, IH by done. by rewrite Nat.add_0_r.
    + rewrite IH. destruct (decide (x = tag)) as [->|Hne].
      * by rewrite Hx.
      * by rewrite Nat.add_0_r.
Qed.

Lemma foldl_countTags_lookup tags queueCount ms tag c :
  ¬ inherited tag → queueCount !! tag = Count <$> c →
  foldl (countTags tags) queueCount ms !! tag
  = Count <$> match (listed tag tags
                     * length (filter (λ m, label_includes tag m) ms))%nat with
              | O => c
              | S k => Some (default 0 c + N.of_nat (S k))%N
              end.
Proof.
  intros Htag Hown. induction ms as [|m ms IH] using rev_ind.
  - simpl. by rewrite Nat.mul_0_r.
  - rewrite foldl_app, filter_app, List.length_app. simpl.
    erewrite countTags_lookup; [|done|exact IH].
    rewrite filter_cons, filter_nil.
    destruct (label_includes tag m) eqn:Hm; simpl.
    + destruct (listed tag tags) as [|j]; [done|].
      destruct (length (filter _ ms)) as [|n].
      * rewrite Nat.mul_0_r, Nat.add_0_l, Nat.mul_1_r. done.
      * simpl. do 2 f_equal. nia.
    + by rewrite Nat.add_0_r.
Qed.

Lemma filter_tag_hit tag ms :
  length (filter (λ m, label_includes tag m)
            (filter (λ m, labels m !! "type" = Some "enqueued") ms))
  = length (filter (λ m, tag_hit tag m) ms).
Proof.
  rewrite list_filter_filter. f_equal. apply list_filter_iff.
  intros m. unfold tag_hit. rewrite andb_True, bool_decide_spec. tauto.
Qed.

(** X13. For a tag that is not the name of a member of [Object.prototype],
    the counter is the number of samples whose [type] is [enqueued] and
    whose [tags] label includes the tag (as a substring), times the number
    of times the tag is listed in the configured tags; with no such sample,
    or when the tag is not configured, the tag has no counter at all (never
    a counter of zero). *)
Theorem count_of_tag (tags : list string) (ms : list Metric) (tag : string) :
  ¬ inherited tag →
  countQueue tags ms !! tag
  = match (listed tag tags * length (filter (λ m, tag_hit tag m) ms))%nat with
    | O => None
    | S k => Some (Count (N.of_nat (S k)))
    end.
Proof.
  intros Htag. unfold countQueue.
  rewrite (foldl_countTags_lookup _ _ _ _ None), filter_tag_hit by done.
  by destruct (listed tag tags * _)%nat.
Qed.

Lemma count_of_tag_witness :
  countQueue ["billing"; "sales"; "billing"]
    [ {| labels := <["tags" := "billing,support"]> {[ "type" := "enqueued" ]};
         value := NaN |};
      {| labels := <["tags" := "prebilling"]> {[ "type" := "enqueued" ]};
         value := NaN |};
      {| labels := <["tags" := "billing"]> {[ "type" := "dequeued" ]};
         value := NaN |} ] !! "billing"
  = Some (Count 4).
Proof.
  refine (count_of_tag ["billing"; "sales"; "billing"] _ "billing" _).
  refute_elem.
Defined.

(** The tag [constructor] names a member of [Object.prototype]: what is
    stored for it is no count but a string, and nothing is stored for
    [__proto__]. *)
Example inherited_tags_are_not_counted :
  countTags ["constructor"; "__proto__"] ∅
    {| labels := {[ "tags" := "constructor __proto__" ]}; value := NaN |}
  = {[ "constructor" := MemberText 1 ]}.
Proof. vm_compute. reflexivity. Qed.

(** ** Incident clustering: what a step can do *)

Lemma groupStep_cases now maxAge period groups incident :
  (isWithinTolerance (startsAt incident) now maxAge = false ∧
   groupStep now maxAge period groups incident = groups)
  ∨ (isWithinTolerance (startsAt incident) now maxAge = true ∧
     ∃ i g, groups !! i = Some g ∧ group_matches period incident g ∧
            host incident ∈ hosts g ∧
            groupStep now maxAge period groups incident = groups)
  ∨ (isWithinTolerance (startsAt incident) now maxAge = true ∧
     ∃ i g, groups !! i = Some g ∧ group_matches period incident g ∧
            (host incident ∉ hosts g) ∧
            groupStep now maxAge period groups incident
            = <[i := add_to_group incident g]> groups)
  ∨ (isWithinTolerance (startsAt incident) now maxAge = true ∧
     Forall (λ g, ¬ group_matches period incident g) groups ∧
     groupStep now maxAge period groups incident
     = groups ++ [new_group incident]).
Proof.
  unfold groupStep.
  destruct (isWithinTolerance (startsAt incident) now maxAge) eqn:Hage;
    simpl; [|by left].
  right. destruct (list_find _ groups) as [[i g]|] eqn:Hfind.
  - apply list_find_Some in Hfind as (Hi & Hm & _).
    case_bool_decide.
    + left. split; [done|]. by exists i, g.
    + right. left. split; [done|]. by exists i, g.
  - right. right. split; [done|]. split; [|done].
    by apply list_find_None in Hfind.
Qed.

Lemma groupStep_preserves (P : IncidentGroup → Prop)
    now maxAge period groups incident :
  P (new_group incident) →
  (∀ g, P g → group_matches period incident g → host incident ∉ hosts g →
        P (add_to_group incident g)) →
  Forall P groups →
  Forall P (groupStep now maxAge period groups incident).
Proof.
  intros Hnew Hadd Hall.
  destruct (groupStep_cases now maxAge period groups incident)
    as [[_ ->]|[(_ & i & g & _ & _ & _ & ->)
       |[(_ & i & g & Hi & Hm & Hh & ->)|(_ & _ & ->)]]]; try done.
  - apply Forall_insert; [done|]. apply Hadd; [|done..].
    by eapply Forall_lookup_1 in Hall.
  - apply Forall_app. split; [done|]. by apply Forall_singleton.
Qed.

Lemma groupIncidents_preserves (P : IncidentGroup → Prop)
    now maxAge period incidents :
  (∀ incident, P (new_group incident)) →
  (∀ incident g, P g → host incident ∉ hosts g → P (add_to_group incident g)) →
  Forall P (groupIncidents now maxAge period incidents).
Proof.
  intros Hnew Hadd.
  induction incidents as [|incident incidents IH] using rev_ind; [constructor|].
  rewrite groupIncidents_snoc. apply groupStep_preserves; auto.
Qed.

(** X14. In every group of the result the hosts are pairwise different, the
    count is the number of hosts, and there is at least one host. *)
Theorem hosts_are_distinct_and_counted
    (now maxAge period : Z) (incidents : list Incident) :
  Forall group_ok (groupIncidents now maxAge period incidents).
Proof.
  apply groupIncidents_preserves.
  - intros incident. unfold group_ok. simpl. split_and!; [|done..].
    apply NoDup_singleton.
  - intros incident g (Hnd & Hcount & Hne) Hh. unfold group_ok. simpl.
    split_and!.
    + apply NoDup_app. split_and!; [done| |apply NoDup_singleton].
      intros h Hin ->%list_elem_of_singleton. done.
    + rewrite List.length_app. simpl. lia.
    + by destruct (hosts g).
Qed.

(** X15. The horizon holds in both directions: an incident dated later than
    [now] by more than the maximum age is skipped like one that is too
    old. *)
Theorem future_incident_is_discarded
    (now maxAge period : Z) (incident : Incident) :
  startsAt incident - now > maxAge * 1000 →
  ∀ before after,
    groupIncidents now maxAge period (before ++ incident :: after)
    = groupIncidents now maxAge period (before ++ after).
Proof.
  intros Hfuture before after. unfold groupIncidents.
  rewrite !foldl_app. simpl. rewrite groupStep_too_old; [done|].
  apply not_true_is_false. rewrite isWithinTolerance_spec. lia.
Qed.

Lemma future_incident_is_discarded_witness :
  groupIncidents 0 100000 100
    ([] ++ {| startsAt := 200000000; host := "A"; link := "L"; region := "R" |}
        :: [])
  = groupIncidents 0 100000 100 ([] ++ []).
Proof.
  refine (future_incident_is_discarded 0 100000 100
            {| startsAt := 200000000; host := "A"; link := "L"; region := "R" |}
            _ [] []).
  simpl. lia.
Defined.

Lemma grown_from_refl g : grown_from g g.
Proof. unfold grown_from. split_and!; try done; lia. Qed.

Lemma grown_from_trans g1 g2 g3 :
  grown_from g1 g2 → grown_from g2 g3 → grown_from g1 g3.
Proof.
  unfold grown_from.
  intros (? & ? & ? & ? & ? & ?) (? & ? & ? & ? & ? & ?).
  split_and!; try congruence; try lia. by etrans.
Qed.

Lemma groupStep_grows now maxAge period groups incident i g :
  groups !! i = Some g →
  ∃ g', groupStep now maxAge period groups incident !! i = Some g'
        ∧ grown_from g g'.
Proof.
  intros Hi.
  destruct (groupStep_cases now maxAge period groups incident)
    as [[_ ->]|[(_ & j & g0 & _ & _ & _ & ->)
       |[(_ & j & g0 & Hj & Hm & Hh & ->)|(_ & _ & ->)]]].
  - exists g. split; [done|apply grown_from_refl].
  - exists g. split; [done|apply grown_from_refl].
  - destruct (decide (i = j)) as [->|Hne].
    + assert (g0 = g) as -> by congruence.
      exists (add_to_group incident g).
      split; [apply list_lookup_insert_eq; by eapply lookup_lt_Some|].
      unfold grown_from. simpl. split_and!; try done; try lia.
      by apply prefix_app_r.
    + exists g. split; [by rewrite list_lookup_insert_ne|apply grown_from_refl].
  - exists g. split; [by apply lookup_app_l_Some|apply grown_from_refl].
Qed.

(** X16. A run never removes, reorders or shrinks a group: the group that
    stands at a position after part of the input still stands there after
    any further input, with the same region and link, its hosts first in
    the list of hosts, a span at least as wide and a count at least as
    large. *)
Theorem groups_only_grow
    (now maxAge period : Z) (processed more : list Incident)
    (i : nat) (g : IncidentGroup) :
  groupIncidents now maxAge period processed !! i = Some g →
  ∃ g', groupIncidents now maxAge period (processed ++ more) !! i = Some g'
        ∧ grown_from g g'.
Proof.
  intros Hi. induction more as [|incident more IH] using rev_ind.
  - rewrite app_nil_r. exists g. split; [done|apply grown_from_refl].
  - destruct IH as (g1 & H1 & Hg1).
    rewrite app_assoc, groupIncidents_snoc.
    destruct (groupStep_grows now maxAge period _ incident i g1 H1)
      as (g2 & H2 & Hg2).
    exists g2. split; [done|]. by eapply grown_from_trans.
Qed.

Lemma groups_only_grow_witness :
  ∃ g', groupIncidents 0 100000 100
          (three_incidents "R" "L" "A" "B" "C"
           ++ [ {| startsAt := 40000; host := "D"; link := "L";
                   region := "R" |} ]) !! 0%nat = Some g'
        ∧ grown_from
            {| group_region := "R"; group_link := "L"; hosts := ["A"; "B"];
               count := 2; startsAtMin := 0; startsAtMax := 50 * 1000 |} g'.
Proof.
  apply (groups_only_grow 0 100000 100 (three_incidents "R" "L" "A" "B" "C")).
  vm_compute. reflexivity.
Defined.

(** ** Incident clustering: what the groups stand for *)

Lemma groupStep_keeps_represented now maxAge period groups incident r l h :
  represented r l h groups →
  represented r l h (groupStep now maxAge period groups incident).
Proof.
  intros (g & [i Hi]%list_elem_of_lookup & Hr & Hl & Hh).
  destruct (groupStep_grows now maxAge period groups incident i g Hi)
    as (g' & Hi' & Hr' & Hl' & [k Hk] & _).
  exists g'. split_and!; [|congruence..|].
  - apply list_elem_of_lookup. by exists i.
  - rewrite Hk. apply elem_of_app. by left.
Qed.

Lemma groupStep_represents now maxAge period groups incident :
  isWithinTolerance (startsAt incident) now maxAge = true →
  represented (region incident) (link incident) (host incident)
              (groupStep now maxAge period groups incident).
Proof.
  intros Hage.
  destruct (groupStep_cases now maxAge period groups incident)
    as [[? _]|[(_ & i & g & Hi & Hm & Hh & ->)
       |[(_ & i & g & Hi & Hm & Hh & ->)|(_ & _ & ->)]]]; [congruence|..].
  - destruct Hm as (Hr & Hl & _). exists g. split_and!; try done.
    apply list_elem_of_lookup. by exists i.
  - destruct Hm as (Hr & Hl & _).
    exists (add_to_group incident g). split_and!; try done.
    + apply list_elem_of_lookup. exists i.
      apply list_lookup_insert_eq. by eapply lookup_lt_Some.
    + simpl. apply elem_of_app. right. apply list_elem_of_here.
  - exists (new_group incident). split_and!; try done.
    + apply elem_of_app. right. apply list_elem_of_here.
    + simpl. apply list_elem_of_here.
Qed.

(** X17. No incident within the horizon is lost: its host is listed in some
    group of its region and link in the result. *)
Theorem incident_in_horizon_is_represented
    (now maxAge period : Z) (incidents : list Incident) (incident : Incident) :
  incident ∈ incidents →
  isWithinTolerance (startsAt incident) now maxAge = true →
  represented (region incident) (link incident) (host incident)
              (groupIncidents now maxAge period incidents).
Proof.
  intros Hin Hage. induction incidents as [|x incidents IH] using rev_ind.
  - by apply elem_of_nil in Hin.
  - rewrite groupIncidents_snoc.
    apply elem_of_app in Hin as [Hin| ->%list_elem_of_singleton].
    + by apply groupStep_keeps_represented, IH.
    + by apply groupStep_represents.
Qed.

Lemma incident_in_horizon_is_represented_witness :
  represented "R" "L" "B"
    (groupIncidents 0 100000 100 (three_incidents "R" "L" "A" "B" "C")).
Proof.
  apply (incident_in_horizon_is_represented 0 100000 100
           (three_incidents "R" "L" "A" "B" "C")
           {| startsAt := 50 * 1000; host := "B"; link := "L"; region := "R" |}).
  - unfold three_incidents. apply elem_of_cons. right. apply list_elem_of_here.
  - reflexivity.
Defined.

Lemma backed_by_mono now maxAge incidents incidents' g :
  incidents ⊆ incidents' →
  backed_by now maxAge incidents g → backed_by now maxAge incidents' g.
Proof.
  intros Hsub (Hhosts & (x & Hx & Hx') & (y & Hy & Hy')). split_and!.
  - intros h Hh. destruct (Hhosts h Hh) as (z & Hz & Hz').
    exists z. split; [by apply Hsub|done].
  - exists x. split; [by apply Hsub|done].
  - exists y. split; [by apply Hsub|done].
Qed.

Lemma backed_by_new now maxAge incidents incident :
  incident ∈ incidents →
  isWithinTolerance (startsAt incident) now maxAge = true →
  backed_by now maxAge incidents (new_group incident).
Proof.
  intros Hin Hage. unfold backed_by, of_group. simpl. split_and!.
  - intros h ->%list_elem_of_singleton. by exists incident.
  - exists incident. split_and!; try done. apply list_elem_of_here.
  - exists incident. split_and!; try done. apply list_elem_of_here.
Qed.

Lemma backed_by_add now maxAge period incidents incident g :
  incident ∈ incidents →
  isWithinTolerance (startsAt incident) now maxAge = true →
  group_matches period incident g →
  backed_by now maxAge incidents g →
  backed_by now maxAge incidents (add_to_group incident g).
Proof.
  intros Hin Hage (Hr & Hl & _) (Hhosts & (x & Hx & [? ?] & Hxh & Hxa & Hxt)
                                 & (y & Hy & [? ?] & Hyh & Hya & Hyt)).
  unfold backed_by, of_group in *. simpl. split_and!.
  - intros h [Hh| ->%list_elem_of_singleton]%elem_of_app; [by apply Hhosts|].
    by exists incident.
  - destruct (Z.min_spec (startsAtMin g) (startsAt incident))
      as [[_ ->]|[_ ->]].
    + exists x. split_and!; try done. apply elem_of_app. by left.
    + exists incident. split_and!; try done.
      apply elem_of_app. right. apply list_elem_of_here.
  - destruct (Z.max_spec (startsAtMax g) (startsAt incident))
      as [[_ ->]|[_ ->]].
    + exists incident. split_and!; try done.
      apply elem_of_app. right. apply list_elem_of_here.
    + exists y. split_and!; try done. apply elem_of_app. by left.
Qed.

(** X18. Nothing in a group is made up: every host of a group of the result
    is the host of an input incident within the horizon that has the
    group's region and link, and the two bounds of the group are start
    times of such incidents whose hosts the group lists. *)
Theorem groups_are_backed_by_incidents
    (now maxAge period : Z) (incidents : list Incident) :
  Forall (backed_by now maxAge incidents)
         (groupIncidents now maxAge period incidents).
Proof.
  induction incidents as [|x incidents IH] using rev_ind; [constructor|].
  rewrite groupIncidents_snoc.
  assert (Forall (backed_by now maxAge (incidents ++ [x]))
                 (groupIncidents now maxAge period incidents)) as IH'.
  { eapply Forall_impl; [done|]. intros g. apply backed_by_mono.
    intros y Hy. apply elem_of_app. by left. }
  assert (x ∈ incidents ++ [x]) as Hx
    by (apply elem_of_app; right; apply list_elem_of_here).
  destruct (groupStep_cases now maxAge period
              (groupIncidents now maxAge period incidents) x)
    as [[_ ->]|[(_ & i & g & _ & _ & _ & ->)
       |[(Hage & i & g & Hi & Hm & Hh & ->)|(Hage & _ & ->)]]]; try done.
  - apply Forall_insert; [done|].
    eapply backed_by_add; [done..|]. by eapply Forall_lookup_1 in IH'.
  - apply Forall_app. split; [done|].
    apply Forall_singleton. by apply backed_by_new.
Qed.

(** ** Incident extraction: the order of the incidents *)

Lemma insert_sorted_perm {A} (compare : A → A → Z) x l :
  insert_sorted compare x l ≡ₚ x :: l.
Proof.
  induction l as [|y l IH]; simpl; [done|].
  case_bool_decide; [done|]. rewrite IH. apply Permutation_swap.
Qed.

Lemma js_sort_perm {A} (compare : A → A → Z) l : js_sort compare l ≡ₚ l.
Proof.
  induction l as [|x l IH]; simpl; [done|].
  by rewrite insert_sorted_perm, IH.
Qed.

Lemma consistent_on_mono {A} (compare : A → A → Z) l l' :
  l ⊆ l' → consistent_on compare l' → consistent_on compare l.
Proof.
  intros Hsub [Hanti Htrans]. split.
  - intros a b Ha Hb. apply Hanti; by apply Hsub.
  - intros a b c Ha Hb Hc. apply Htrans; by apply Hsub.
Qed.

Lemma insert_sorted_sorted {A} (compare : A → A → Z) x l :
  consistent_on compare (x :: l) →
  StronglySorted (λ a b, compare a b ≤ 0) l →
  StronglySorted (λ a b, compare a b ≤ 0) (insert_sorted compare x l).
Proof.
  intros Hc Hl. induction Hl as [|y l Hl IH Hy]; simpl.
  - repeat constructor.
  - case_bool_decide as Hxy.
    + constructor; [by constructor|].
      constructor; [done|].
      destruct Hc as [_ Htrans].
      rewrite Forall_forall in Hy. apply Forall_forall. intros z Hz.
      apply (Htrans x y z); rewrite ?elem_of_cons; auto.
    + constructor.
      * apply IH. eapply consistent_on_mono; [|exact Hc].
        intros z. rewrite !elem_of_cons. tauto.
      * rewrite insert_sorted_perm. constructor; [|done].
        destruct Hc as [Hanti _].
        assert (compare y x < 0); [|lia].
        apply Hanti; rewrite ?elem_of_cons; auto. lia.
Qed.

Lemma js_sort_sorted {A} (compare : A → A → Z) l :
  consistent_on compare l →
  StronglySorted (λ a b, compare a b ≤ 0) (js_sort compare l).
Proof.
  intros Hc. induction l as [|x l IH]; simpl; [constructor|].
  apply insert_sorted_sorted.
  - eapply consistent_on_mono; [|exact Hc].
    intros y Hy. by rewrite js_sort_perm in Hy.
  - apply IH. eapply consistent_on_mono; [|exact Hc].
    intros z. rewrite elem_of_cons. tauto.
Qed.

Lemma StronglySorted_impl_on {A} (R R' : A → A → Prop) (P : A → Prop) l :
  (∀ a b, P a → P b → R a b → R' a b) →
  Forall P l → StronglySorted R l → StronglySorted R' l.
Proof.
  intros HR HP. induction 1 as [|x l _ IH Hx]; constructor.
  - apply IH. by apply Forall_cons in HP as [_ ?].
  - apply Forall_cons in HP as [Hx' HP]. rewrite Forall_forall in *.
    intros y Hy. apply HR; auto.
Qed.

Lemma compareStart_numeric a b :
  raw_startsAt a ≠ NotANumber → raw_startsAt b ≠ NotANumber →
  sortCompare (compareStart a b)
  = sortCompare (raw_startsAt a) - sortCompare (raw_startsAt b).
Proof.
  unfold compareStart. intros Ha Hb.
  by destruct (raw_startsAt a), (raw_startsAt b).
Qed.

Lemma compareStart_consistent incidents :
  Forall (λ x, raw_startsAt x ≠ NotANumber) incidents →
  consistent_on (λ a b, sortCompare (compareStart a b)) incidents.
Proof.
  rewrite Forall_forall. intros Hnum. split.
  - intros a b Ha%Hnum Hb%Hnum. rewrite !compareStart_numeric by done. lia.
  - intros a b c Ha%Hnum Hb%Hnum Hc%Hnum.
    rewrite !compareStart_numeric by done. lia.
Qed.

Lemma toIncident_numeric alerts :
  Forall (λ a, alert_startsAt a ≠ NotANumber) alerts →
  Forall (λ x, raw_startsAt x ≠ NotANumber) (toIncident <$> alerts).
Proof. intros H. apply Forall_fmap. by eapply Forall_impl. Qed.

Lemma extractAndSortIncidents_sorted alerts :
  Forall (λ a, alert_startsAt a ≠ NotANumber) alerts →
  StronglySorted raw_by_start (extractAndSortIncidents alerts).
Proof.
  intros Hnum%toIncident_numeric. unfold extractAndSortIncidents.
  eapply (StronglySorted_impl_on
            (λ a b, sortCompare (compareStart a b) ≤ 0) _
            (λ x, raw_startsAt x ≠ NotANumber)).
  - intros a b Ha Hb Hab. cbv beta in Hab.
    rewrite compareStart_numeric in Hab by done. unfold raw_by_start.
    destruct (raw_startsAt a) as [x|], (raw_startsAt b) as [y|]; try done.
    exists x, y. split_and!; [done..|]. simpl in Hab. lia.
  - by rewrite js_sort_perm.
  - by apply js_sort_sorted, compareStart_consistent.
Qed.

Lemma insert_sorted_stable t x l :
  filter (λ y, raw_startsAt y = Int t)
         (insert_sorted (λ a b, sortCompare (compareStart a b)) x l)
  = filter (λ y, raw_startsAt y = Int t) (x :: l).
Proof.
  induction l as [|y l IH]; simpl; [done|].
  case_bool_decide as Hxy; [done|].
  rewrite filter_cons, IH, !filter_cons.
  repeat case_decide; try done.
  exfalso. apply Hxy. unfold compareStart.
  repeat match goal with H : raw_startsAt _ = Int _ |- _ => rewrite H end.
  simpl. lia.
Qed.

(** X19. When the start time of every alert parses, the comparator of
    [extractAndSortIncidents] is consistent on the incidents of the alerts,
    and the function returns those incidents, all of them and no other, in
    ascending order of start time; incidents that start at the same time
    keep the order the alerts came in. *)
Theorem incidents_are_sorted_stably (alerts : list Alert) :
  Forall (λ a, alert_startsAt a ≠ NotANumber) alerts →
  consistent_on (λ a b, sortCompare (compareStart a b)) (toIncident <$> alerts) ∧
  extractAndSortIncidents alerts ≡ₚ toIncident <$> alerts ∧
  StronglySorted raw_by_start (extractAndSortIncidents alerts) ∧
  ∀ t, filter (λ x, raw_startsAt x = Int t) (extractAndSortIncidents alerts)
       = filter (λ x, raw_startsAt x = Int t) (toIncident <$> alerts).
Proof.
  intros Hnum. split_and!.
  - by apply compareStart_consistent, toIncident_numeric.
  - apply js_sort_perm.
  - by apply extractAndSortIncidents_sorted.
  - intros t. unfold extractAndSortIncidents.
    induction (toIncident <$> alerts) as [|x l IH]; simpl; [done|].
    by rewrite insert_sorted_stable, !filter_cons, IH.
Qed.

Lemma three_alerts_parse :
  Forall (λ a, alert_startsAt a ≠ NotANumber) three_alerts.
Proof. unfold three_alerts. repeat constructor; discriminate. Qed.

Lemma incidents_are_sorted_stably_witness :
  extractAndSortIncidents three_alerts ≡ₚ toIncident <$> three_alerts ∧
  StronglySorted raw_by_start (extractAndSortIncidents three_alerts).
Proof.
  destruct (incidents_are_sorted_stably three_alerts three_alerts_parse)
    as (_ & Hperm & Hsorted & _).
  exact (conj Hperm Hsorted).
Defined.

(** With a start time that does not parse among them, the comparator is
    not consistent on the incidents: it calls the unparseable one equal to
    every other, and two others unequal. *)
Example unparseable_start_is_not_consistent :
  ¬ consistent_on (λ a b, sortCompare (compareStart a b))
      [ {| raw_startsAt := Int 1; raw_host := "A"; raw_link := "L";
           raw_region := "R" |};
        {| raw_startsAt := NotANumber; raw_host := "B"; raw_link := "L";
           raw_region := "R" |};
        {| raw_startsAt := Int 0; raw_host := "C"; raw_link := "L";
           raw_region := "R" |} ].
Proof.
  intros [_ Htrans].
  specialize (Htrans (mkRawIncident (Int 1) "A" "L" "R")
                     (mkRawIncident NotANumber "B" "L" "R")
                     (mkRawIncident (Int 0) "C" "L" "R")).
  assert (1 - 0 ≤ 0); [|lia].
  apply Htrans; [repeat constructor..|done|done].
Qed.

(** ** Incident clustering on sorted input: groups lie apart *)

Lemma isWithinTolerance_Is_true d1 d2 tol :
  isWithinTolerance d1 d2 tol ↔ Z.abs (d1 - d2) ≤ tol * 1000.
Proof. by rewrite Is_true_true, isWithinTolerance_spec. Qed.

Lemma sep_inv_later period T T' groups :
  T ≤ T' → sep_inv period T groups → sep_inv period T' groups.
Proof.
  intros HT (Hspan & Hmax & Hsep). split_and!; [done| |done].
  eapply Forall_impl; [exact Hmax|]. simpl. intros g ?. lia.
Qed.

Lemma groupStep_sep now maxAge period T groups incident :
  sep_inv period T groups →
  T ≤ startsAt incident →
  sep_inv period (startsAt incident)
          (groupStep now maxAge period groups incident).
Proof.
  intros Hinv HT.
  destruct (groupStep_cases now maxAge period groups incident)
    as [[_ ->]|[(_ & i & g & _ & _ & _ & ->)
       |[(_ & i & g & Hi & Hm & Hh & ->)|(_ & Hnone & ->)]]];
    [by eapply sep_inv_later..| |].
  - destruct Hinv as (Hspan & Hmax & Hsep).
    pose proof (Forall_lookup_1 _ _ _ _ Hspan Hi) as Hg. unfold span_ok in Hg.
    pose proof (Forall_lookup_1 _ _ _ _ Hmax Hi) as HgT. simpl in HgT.
    destruct Hm as (Hr & Hl & Hnear).
    rewrite !isWithinTolerance_Is_true in Hnear.
    split_and!.
    + apply Forall_insert; [done|]. by apply add_to_group_span_ok.
    + apply Forall_insert; [|simpl; lia].
      eapply Forall_impl; [exact Hmax|]. simpl. intros g0 ?. lia.
    + intros a b ga gb Hab Ha Hb Hkr Hkl.
      apply list_lookup_insert_Some in Ha as [(-> & <- & _)|[Hai Ha]];
        apply list_lookup_insert_Some in Hb as [(-> & <- & _)|[Hbi Hb]];
        simpl in *.
      * lia.
      * pose proof (Hsep _ _ _ _ Hab Hi Hb Hkr Hkl) as Hfar.
        pose proof (Forall_lookup_1 _ _ _ _ Hspan Hb) as Hgb.
        pose proof (Forall_lookup_1 _ _ _ _ Hmax Hb) as HgbT.
        unfold span_ok in Hgb. simpl in HgbT. destruct Hnear; lia.
      * pose proof (Hsep _ _ _ _ Hab Ha Hi Hkr Hkl). lia.
      * by eapply Hsep.
  - destruct Hinv as (Hspan & Hmax & Hsep). split_and!.
    + apply Forall_app. split; [done|].
      apply Forall_singleton, new_group_span_ok.
    + apply Forall_app. split.
      * eapply Forall_impl; [exact Hmax|]. simpl. intros g0 ?. lia.
      * apply Forall_singleton. simpl. lia.
    + intros a b ga gb Hab Ha Hb Hkr Hkl.
      apply lookup_app_Some in Ha as [Ha|[Hlen Ha]];
        apply lookup_app_Some in Hb as [Hb|[Hlen' Hb]].
      * by eapply Hsep.
      * apply list_lookup_singleton_Some in Hb as [_ <-]. simpl in *.
        pose proof (Forall_lookup_1 _ _ _ _ Hnone Ha) as Hno.
        pose proof (Forall_lookup_1 _ _ _ _ Hmax Ha) as HgaT. simpl in *.
        unfold group_matches in Hno.
        rewrite !isWithinTolerance_Is_true in Hno.
        assert (¬ Z.abs (startsAtMax ga - startsAt incident) ≤ period * 1000)
          by tauto.
        lia.
      * apply lookup_lt_Some in Hb. lia.
      * apply list_lookup_singleton_Some in Ha as [Ha _].
        apply list_lookup_singleton_Some in Hb as [Hb _]. lia.
Qed.

Lemma foldl_groupStep_sep now maxAge period incidents T groups :
  StronglySorted by_start incidents →
  Forall (λ x, T ≤ startsAt x) incidents →
  sep_inv period T groups →
  ∃ T', sep_inv period T' (foldl (groupStep now maxAge period) groups incidents).
Proof.
  intros Hsorted. revert T groups.
  induction Hsorted as [|x incidents Hsorted IH Hx]; intros T groups Hall Hinv.
  - by exists T.
  - apply Forall_cons in Hall as [HT _]. simpl.
    apply (IH (startsAt x)); [done|].
    by eapply groupStep_sep.
Qed.

Lemma groupIncidents_sorted_separated now maxAge period incidents :
  StronglySorted by_start incidents →
  separated period (groupIncidents now maxAge period incidents).
Proof.
  intros Hsorted. unfold groupIncidents.
  destruct incidents as [|x incidents].
  - intros i j g g' _ Hi. by destruct i.
  - assert (Forall (λ y, startsAt x ≤ startsAt y) (x :: incidents)) as Hall.
    { apply StronglySorted_inv in Hsorted as [_ Hx].
      constructor; [lia|done]. }
    assert (sep_inv period (startsAt x) []) as Hinit.
    { split_and!; [constructor..|].
      intros i j g g' _ Hi. by destruct i. }
    destruct (foldl_groupStep_sep now maxAge period (x :: incidents)
                (startsAt x) [] Hsorted Hall Hinit) as (T' & _ & _ & Hsep).
    exact Hsep.
Qed.

(** X20. On input in ascending order of start time, two groups of the same
    region and link never touch: the later-created one starts more than the
    period after the end of the earlier one. *)
Theorem sorted_input_gives_separated_groups
    (now maxAge period : Z) (incidents : list Incident) :
  StronglySorted by_start incidents →
  separated period (groupIncidents now maxAge period incidents).
Proof. apply groupIncidents_sorted_separated. Qed.

Lemma sorted_input_gives_separated_groups_witness :
  StronglySorted by_start (three_incidents "R" "L" "A" "B" "C") ∧
  separated 100
    (groupIncidents 0 100000 100 (three_incidents "R" "L" "A" "B" "C")).
Proof.
  assert (StronglySorted by_start (three_incidents "R" "L" "A" "B" "C"))
    as Hsorted.
  { unfold three_incidents, by_start.
    repeat (constructor; [|repeat constructor; simpl; lia]). constructor. }
  split; [done|].
  exact (sorted_input_gives_separated_groups 0 100000 100
           (three_incidents "R" "L" "A" "B" "C") Hsorted).
Defined.

Lemma omap_dated_sorted incidents :
  StronglySorted raw_by_start incidents →
  StronglySorted by_start (omap dated incidents).
Proof.
  induction 1 as [|x l _ IH Hx]; simpl; [constructor|].
  destruct (dated x) as [i|] eqn:Hi; [|done].
  constructor; [done|].
  apply Forall_forall. intros j (y & Hy & Hj)%list_elem_of_omap.
  rewrite Forall_forall in Hx.
  destruct (Hx y Hy) as (tx & ty & Htx & Hty & Hle).
  unfold dated in Hi, Hj. rewrite Htx in Hi. rewrite Hty in Hj.
  simplify_eq. by unfold by_start.
Qed.

(** X21. When the start time of every alert taken from the response parses,
    two groups of the same region and link among those
    [generateGamasMetrics] hands to the formatter are more than the period
    apart: the incidents are sorted before they are grouped. *)
Theorem gamas_groups_are_separated
    (now maxAge period : Z) (data : list (list Alert)) :
  Forall (λ a, alert_startsAt a ≠ NotANumber) (first_alerts data) →
  separated period (gamasIncidentGroups now maxAge period data).
Proof.
  intros Hnum. unfold gamasIncidentGroups.
  apply groupIncidents_sorted_separated, omap_dated_sorted.
  by apply extractAndSortIncidents_sorted.
Qed.

Lemma gamas_groups_are_separated_witness :
  separated 100 (gamasIncidentGroups 0 100000 100 [three_alerts]).
Proof.
  apply (gamas_groups_are_separated 0 100000 100 [three_alerts]).
  exact three_alerts_parse.
Defined.

(** ** The renderer of the incident groups *)

Lemma filter_ext_Forall {A} (P Q : A → Prop)
    `{∀ x, Decision (P x)} `{∀ x, Decision (Q x)} (l : list A) :
  Forall (λ x, P x ↔ Q x) l → filter P l = filter Q l.
Proof.
  induction 1 as [|x l Hx _ IH]; [done|].
  rewrite !filter_cons, IH.
  destruct (decide (P x)), (decide (Q x)); tauto.
Qed.

(** X22. A group is written to the metrics text exactly when it lists more
    than the threshold of distinct hosts: the text [generateGamasMetrics]
    writes is the lines of those groups, in creation order. *)
Theorem groups_above_threshold_are_written
    (threshold : Z) (metricName : string)
    (getFullYear getMonth getDate getHours getMinutes : Z → Z)
    (now maxAge period : Z) (data : list (list Alert)) :
  gamasMetricsOutput threshold metricName
    getFullYear getMonth getDate getHours getMinutes now maxAge period data
  = join (String newline "")
      (formatGroup metricName
         getFullYear getMonth getDate getHours getMinutes
       <$> filter (λ g, NoDup (hosts g)
                        ∧ Z.of_nat (length (hosts g)) > threshold)
             (gamasIncidentGroups now maxAge period data)).
Proof.
  unfold gamasMetricsOutput, formatPrometheusMetrics. do 2 f_equal.
  apply filter_ext_Forall. unfold gamasIncidentGroups.
  eapply Forall_impl.
  - apply groupIncidents_preserves with (P := group_ok).
    + intros incident. unfold group_ok. simpl. split_and!; [|done..].
      apply NoDup_singleton.
    + intros incident g (Hnd & Hcount & Hne) Hh. unfold group_ok. simpl.
      split_and!.
      * apply NoDup_app. split_and!; [done| |apply NoDup_singleton].
        intros h Hin ->%list_elem_of_singleton. done.
      * rewrite List.length_app. simpl. lia.
      * by destruct (hosts g).
  - intros g (Hnd & Hcount & _). simpl. rewrite Hcount. tauto.
Qed.

Lemma string_app_assoc a b c : (a +:+ b) +:+ c = a +:+ (b +:+ c).
Proof. induction a as [|x a IH]; [done|]. by rewrite !app_cons, IH. Qed.

Lemma app_empty_l s : "" +:+ s = s.
Proof. reflexivity. Qed.

Ltac str_norm :=
  repeat first [ rewrite app_cons | rewrite app_empty_l
               | rewrite string_app_assoc ].

Lemma Forall_chars_app P a b :
  Forall P (chars (a +:+ b)) ↔ Forall P (chars a) ∧ Forall P (chars b).
Proof. by rewrite chars_app, Forall_app. Qed.

Lemma show_count_time_chars n : Forall time_char (chars (show_count n)).
Proof.
  eapply Forall_impl; [apply show_count_digits|]. intros c ?. by left.
Qed.

Lemma show_int_time_chars z : Forall time_char (chars (show_int z)).
Proof.
  unfold show_int. case_bool_decide.
  - rewrite chars_cons. constructor; [right; by left|].
    apply show_count_time_chars.
  - apply show_count_time_chars.
Qed.

Lemma padStart2_time_chars s :
  Forall time_char (chars s) → Forall time_char (chars (padStart2 s)).
Proof.
  intros Hs. unfold padStart2.
  assert (time_char "0") as H0 by (left; by eexists).
  destruct (String.length s) as [|[|n]]; [| |done].
  - apply Forall_chars_app. split; [|done]. simpl. by repeat constructor.
  - apply Forall_chars_app. split; [|done]. simpl. by repeat constructor.
Qed.

Lemma formatStartTime_time_chars getFullYear getMonth getDate getHours
    getMinutes t :
  Forall time_char
    (chars (formatStartTime getFullYear getMonth getDate getHours getMinutes t)).
Proof.
  unfold formatStartTime.
  repeat (apply Forall_chars_app; split);
    try apply padStart2_time_chars; try apply show_int_time_chars.
  all: simpl; repeat constructor; unfold time_char; tauto.
Qed.

Lemma time_chars_notin c s :
  Forall time_char (chars s) → ¬ time_char c → c ∉ chars s.
Proof. rewrite Forall_forall. intros Hs Hc Hin. by apply Hc, Hs. Qed.

Lemma not_time_char_dquote : ¬ time_char dquote.
Proof. intros [[? ?]|[?|[?|?]]]; done. Qed.

Lemma not_time_char_rbrace : ¬ time_char rbrace.
Proof. intros [[? ?]|[?|[?|?]]]; done. Qed.

Lemma formatGroup_shape name getFullYear getMonth getDate getHours
    getMinutes g :
  formatGroup name getFullYear getMonth getDate getHours getMinutes g
  = name +:+ String lbrace
      (written_labels
         (group_labels getFullYear getMonth getDate getHours getMinutes g)
       +:+ String rbrace (String space (show_int (count g)))).
Proof.
  unfold formatGroup, group_labels.
  rewrite !written_labels_cons. unfold written_labels, written_label, join.
  simpl String.concat. simpl fst. simpl snd.
  by str_norm.
Qed.

Lemma parseAttributes_written items :
  Forall written_ok items →
  parseAttributes (written_labels items) = Ok (labels_of (snd <$> items)).
Proof.
  intros Hitems. unfold parseAttributes, run, scan, init.
  by destruct (run_written_labels items ∅ dquote [] Hitems) as (q1 & log1 & ->).
Qed.

Lemma written_label_notin c item :
  c ≠ equals → c ∉ chars (item.2.1) → c ∉ chars (item.2.2) →
  (∀ quoteChar, item.1 = Some quoteChar → c ≠ quoteChar) →
  c ∉ chars (written_label item).
Proof.
  destruct item as [[quoteChar|] [name value]]; unfold written_label; simpl;
    intros Hc Hname Hvalue Hquote.
  - rewrite chars_app, !chars_cons, chars_app, chars_cons.
    rewrite !not_elem_of_app, !not_elem_of_cons, not_elem_of_app,
      not_elem_of_cons.
    split_and!; try done; [by apply Hquote..|apply not_elem_of_nil].
  - rewrite chars_app, chars_cons, not_elem_of_app, not_elem_of_cons. done.
Qed.

(** X23. A line written for a group is a well-formed exposition line: when
    the region and the link hold no double quote and no closing brace, the
    count is an integer a double holds exactly, and the metric name is one
    that is read back (no brace or line break in it, no [#] at its head,
    and not the name of a member of [Object.prototype]), [parseLine] reads
    the line back to a sample of the trimmed metric name with the labels
    [region], [link] and [start] and the count as value, whatever the time
    zone makes of the start time. *)
Theorem group_line_parses_back
    (metricName : string)
    (getFullYear getMonth getDate getHours getMinutes : Z → Z)
    (g : IncidentGroup) (result : Result) :
  metric_name_ok metricName →
  dquote ∉ chars (group_region g) → rbrace ∉ chars (group_region g) →
  dquote ∉ chars (group_link g) → rbrace ∉ chars (group_link g) →
  0 ≤ count g < 2 ^ 53 →
  parseLine result
    (formatGroup metricName getFullYear getMonth getDate getHours getMinutes g)
  = Ok (pushed (trim metricName)
          {| labels :=
               <["start" := formatStartTime getFullYear getMonth getDate
                              getHours getMinutes (startsAtMin g)]>
                 (<["link" := group_link g]>
                    (<["region" := group_region g]> ∅));
             value := of_count (Z.to_N (count g)) |}
          result).
Proof.
  intros (Hl & Hr & _ & Hhash & Hname) Hrq Hrb Hlq Hlb Hcount.
  pose proof (formatStartTime_time_chars getFullYear getMonth getDate getHours
                getMinutes (startsAtMin g)) as Htime.
  rewrite formatGroup_shape, parseLine_cut.
  - set (items := group_labels _ _ _ _ _ g).
    assert (trim (written_labels items) = written_labels items) as ->.
    { unfold items, group_labels. rewrite !written_labels_cons.
      unfold written_labels, written_label, join, trim.
      simpl String.concat. simpl fst. simpl snd.
      str_norm. rewrite trimStart_id by done.
      repeat first [ apply trimEnd_cons; [|done || by apply app_nonempty_r]
                   | apply trimEnd_app; [|done || by apply app_nonempty_r] ].
      done. }
    rewrite parseAttributes_written; cycle 1.
    { unfold items, group_labels.
      repeat (apply Forall_cons; split); try by constructor.
      all: split; [unfold label_name_ok; simpl; repeat constructor; done|].
      all: simpl; split; [by left|]; try done.
      apply time_chars_notin; [done|apply not_time_char_dquote]. }
    simpl bind.
    assert (trim (String space (show_int (count g)))
            = show_count (Z.to_N (count g))) as ->.
    { unfold show_int. rewrite bool_decide_eq_false_2 by lia.
      apply trim_space_count. }
    rewrite parseFloat_show_count, push_metric_ok by done.
    unfold items, group_labels, labels_of. simpl. unfold assign.
    by rewrite !bool_decide_eq_false_2 by done.
  - by apply startsWith_hash_rendered.
  - done.
  - done.
  - unfold group_labels. rewrite !written_labels_cons.
    change (written_labels [?item]) with (written_label item).
    repeat first [rewrite chars_app | rewrite chars_cons].
    repeat first [rewrite not_elem_of_app | rewrite not_elem_of_cons].
    split_and!; try done.
    all: apply written_label_notin; simpl; try done.
    all: try (by intros ? [= <-]).
    all: try (vm_compute; intros H;
              repeat (apply elem_of_cons in H as [H|H]; [done|]);
              by apply elem_of_nil in H).
    apply time_chars_notin; [done|apply not_time_char_rbrace].
Qed.

Lemma group_line_parses_back_witness :
  parseLine ∅
    (formatGroup "gamas" (λ _, 2024) (λ _, 0) (λ _, 5) (λ _, 9) (λ _, 7)
       {| group_region := "R"; group_link := "L"; hosts := ["A"; "B"];
          count := 2; startsAtMin := 0; startsAtMax := 50 * 1000 |})
  = Ok (pushed (trim "gamas")
          {| labels :=
               <["start" := formatStartTime (λ _, 2024) (λ _, 0) (λ _, 5)
                              (λ _, 9) (λ _, 7) 0]>
                 (<["link" := "L"]> (<["region" := "R"]> ∅));
             value := of_count (Z.to_N 2) |}
          ∅).
Proof.
  apply (group_line_parses_back "gamas"
           (λ _, 2024) (λ _, 0) (λ _, 5) (λ _, 9) (λ _, 7)
           {| group_region := "R"; group_link := "L"; hosts := ["A"; "B"];
              count := 2; startsAtMin := 0; startsAtMax := 50 * 1000 |} ∅).
  - unfold metric_name_ok. split_and!; [..|reflexivity|]; by refute_elem.
  - by refute_elem.
  - by refute_elem.
  - by refute_elem.
  - by refute_elem.
  - simpl. lia.
Defined.

Example formatGroup_example :
  formatGroup "gamas" (λ _, 2024) (λ _, 0) (λ _, 5) (λ _, 9) (λ _, 7)
    {| group_region := "R"; group_link := "L"; hosts := ["A"; "B"];
       count := 2; startsAtMin := 0; startsAtMax := 50 * 1000 |}
  = q "gamas{region=!R!,link=!L!,start=!2024-01-05 09:07!} 2".
Proof. vm_compute. reflexivity. Qed.

(** ** The two orderings of the engineers' report *)

Lemma StronglySorted_numeric {A} (compare : A → A → Z) (P : A → Prop)
    (before : A → A → Prop) l :
  (∀ a b, P a → P b → compare a b ≤ 0 → before a b) →
  Forall P l → consistent_on compare l →
  StronglySorted before (js_sort compare l).
Proof.
  intros Hspec HP Hc.
  eapply (StronglySorted_impl_on (λ a b, compare a b ≤ 0) _ P);
    [exact Hspec| |].
  - by rewrite js_sort_perm.
  - by apply js_sort_sorted.
Qed.

Lemma compareTickets_numeric a b :
  ticket_is_numeric a → ticket_is_numeric b →
  sortCompare (compareTickets a b)
  = if bool_decide (default 0 (statusPriority a)
                    = default 0 (statusPriority b))
    then sortCompare (visitPriority a) - sortCompare (visitPriority b)
    else default 0 (statusPriority a) - default 0 (statusPriority b).
Proof.
  unfold ticket_is_numeric, compareTickets. intros [[pa Hpa] Hva] [[pb Hpb] Hvb].
  destruct (visitPriority a) as [va|], (visitPriority b) as [vb|]; try done.
  rewrite Hpa, Hpb. simpl.
  repeat case_bool_decide; simplify_eq; done.
Qed.

Lemma compareTickets_spec a b :
  ticket_is_numeric a → ticket_is_numeric b →
  sortCompare (compareTickets a b) ≤ 0 → ticket_before a b.
Proof.
  intros Ha Hb. rewrite compareTickets_numeric by done.
  destruct Ha as [[pa Hpa] Hva], Hb as [[pb Hpb] Hvb].
  destruct (visitPriority a) as [va|] eqn:Ea,
           (visitPriority b) as [vb|] eqn:Eb; try done.
  rewrite Hpa, Hpb. simpl. intros Hle.
  exists pa, pb, va, vb. split_and!; try done.
  case_bool_decide; lia.
Qed.

Lemma compareTickets_consistent orderedTickets :
  Forall ticket_is_numeric orderedTickets →
  consistent_on (λ a b, sortCompare (compareTickets a b)) orderedTickets.
Proof.
  rewrite Forall_forall. intros Hnum. split.
  - intros a b Ha%Hnum Hb%Hnum. rewrite !compareTickets_numeric by done.
    repeat case_bool_decide; lia.
  - intros a b c Ha%Hnum Hb%Hnum Hc%Hnum.
    rewrite !compareTickets_numeric by done.
    repeat case_bool_decide; lia.
Qed.

(** X24. When the two priorities of every ticket are numbers (no status
    priority is [null] and no visit priority is [NaN]), the comparator is
    consistent on the tickets, so that the order does not depend on how the
    host sorts, and the tickets of an engineer are listed by status
    priority, and among tickets of one status priority by visit priority,
    both ascending. *)
Theorem tickets_are_ordered (orderedTickets : list OrderedTicket) :
  Forall ticket_is_numeric orderedTickets →
  consistent_on (λ a b, sortCompare (compareTickets a b)) orderedTickets ∧
  js_sort (λ a b, sortCompare (compareTickets a b)) orderedTickets
  ≡ₚ orderedTickets ∧
  StronglySorted ticket_before
    (js_sort (λ a b, sortCompare (compareTickets a b)) orderedTickets).
Proof.
  intros Hnum. pose proof (compareTickets_consistent _ Hnum) as Hc.
  split_and!; [done|apply js_sort_perm|].
  by apply (StronglySorted_numeric _ ticket_is_numeric);
    [apply compareTickets_spec|..].
Qed.

Lemma tickets_are_ordered_witness :
  js_sort (λ a b, sortCompare (compareTickets a b)) some_tickets
  ≡ₚ some_tickets ∧
  StronglySorted ticket_before
    (js_sort (λ a b, sortCompare (compareTickets a b)) some_tickets).
Proof.
  refine (proj2 (tickets_are_ordered some_tickets _)).
  unfold some_tickets, ticket_is_numeric.
  repeat constructor; (by eexists) || discriminate.
Defined.

(** A status priority that is [null] breaks the consistency: [null]
    compares as 0 with a priority of 0 whatever the visit priorities, while
    two [null]s are compared by their visit priorities. *)
Example null_priority_is_not_consistent :
  ¬ consistent_on (λ a b, sortCompare (compareTickets a b))
      [ {| ticketId := 1; statusPriority := None; visitPriority := Int 5 |};
        {| ticketId := 2; statusPriority := Some 0; visitPriority := Int 3 |};
        {| ticketId := 3; statusPriority := None; visitPriority := Int 1 |} ].
Proof.
  intros [_ Htrans].
  specialize (Htrans (mkOrderedTicket 1 None (Int 5))
                     (mkOrderedTicket 2 (Some 0) (Int 3))
                     (mkOrderedTicket 3 None (Int 1))).
  assert (5 - 1 ≤ 0); [|lia].
  apply Htrans; [repeat constructor..|done|done].
Qed.

Lemma compareEngineers_numeric a b :
  engineer_is_numeric a → engineer_is_numeric b →
  sortCompare (compareEngineers a b)
  = if bool_decide (idle a = idle b) then
      if bool_decide (sortCompare (idleStartTime a)
                      = sortCompare (idleStartTime b))
      then Z.of_nat (length (tickets a)) - Z.of_nat (length (tickets b))
      else sortCompare (idleStartTime a) - sortCompare (idleStartTime b)
    else if idle b then 1 else -1.
Proof.
  unfold engineer_is_numeric, compareEngineers. intros Ha Hb.
  destruct (idleStartTime a) as [ta|], (idleStartTime b) as [tb|]; try done.
  simpl. repeat case_bool_decide; try done. by destruct (idle b).
Qed.

Lemma compareEngineers_spec a b :
  engineer_is_numeric a → engineer_is_numeric b →
  sortCompare (compareEngineers a b) ≤ 0 → engineer_before a b.
Proof.
  intros Ha Hb. rewrite compareEngineers_numeric by done.
  unfold engineer_is_numeric in *.
  destruct (idleStartTime a) as [ta|] eqn:Ea,
           (idleStartTime b) as [tb|] eqn:Eb; try done.
  simpl. intros Hle. exists ta, tb. split_and!; try done.
  repeat case_bool_decide.
  - right. split; [done|]. right. split; [done|lia].
  - right. split; [done|]. left. lia.
  - left. destruct (idle a), (idle b); try done; lia.
Qed.

Lemma compareEngineers_consistent orderedEngineers :
  Forall engineer_is_numeric orderedEngineers →
  consistent_on (λ a b, sortCompare (compareEngineers a b)) orderedEngineers.
Proof.
  rewrite Forall_forall. intros Hnum. split.
  - intros a b Ha%Hnum Hb%Hnum. rewrite !compareEngineers_numeric by done.
    destruct (idle a), (idle b); repeat case_bool_decide; try done; lia.
  - intros a b c Ha%Hnum Hb%Hnum Hc%Hnum.
    rewrite !compareEngineers_numeric by done.
    destruct (idle a), (idle b), (idle c); repeat case_bool_decide;
      try done; lia.
Qed.

(** X25. When the start of the idle time of every engineer is a number, the
    comparator is consistent on the engineers, and in the report every idle
    engineer comes before every engineer who is not idle; engineers of one
    kind are ordered by the start of their idle time, and at the same start
    by their number of tickets, both ascending. *)
Theorem engineers_are_ordered (orderedEngineers : list OrderedEngineer) :
  Forall engineer_is_numeric orderedEngineers →
  consistent_on (λ a b, sortCompare (compareEngineers a b)) orderedEngineers ∧
  js_sort (λ a b, sortCompare (compareEngineers a b)) orderedEngineers
  ≡ₚ orderedEngineers ∧
  StronglySorted engineer_before
    (js_sort (λ a b, sortCompare (compareEngineers a b)) orderedEngineers) ∧
  ∀ i j a b,
    js_sort (λ a b, sortCompare (compareEngineers a b)) orderedEngineers !! i
    = Some a →
    js_sort (λ a b, sortCompare (compareEngineers a b)) orderedEngineers !! j
    = Some b →
    idle a = false → idle b = true → (j < i)%nat.
Proof.
  intros Hnum. pose proof (compareEngineers_consistent _ Hnum) as Hc.
  assert (StronglySorted engineer_before
            (js_sort (λ a b, sortCompare (compareEngineers a b))
                     orderedEngineers)) as Hsorted.
  { by apply (StronglySorted_numeric _ engineer_is_numeric);
      [apply compareEngineers_spec|..]. }
  split_and!; [done|apply js_sort_perm|done|].
  revert Hsorted. generalize (js_sort (λ a b, sortCompare (compareEngineers a b))
                                      orderedEngineers).
  intros l Hsorted. induction Hsorted as [|x l _ IH Hx]; intros i j a b Hi Hj Ha Hb.
  - by destruct i.
  - destruct i as [|i], j as [|j]; simpl in *; simplify_eq.
    + congruence.
    + rewrite Forall_forall in Hx.
      assert (engineer_before a b) as (? & ? & _ & _ & [[? ?]|[? _]])
        by (apply Hx; by eapply list_elem_of_lookup_2); congruence.
    + lia.
    + apply ->Nat.succ_lt_mono. by eapply IH.
Qed.

Lemma engineers_are_ordered_witness :
  js_sort (λ a b, sortCompare (compareEngineers a b)) some_engineers
  ≡ₚ some_engineers ∧
  StronglySorted engineer_before
    (js_sort (λ a b, sortCompare (compareEngineers a b)) some_engineers).
Proof.
  destruct (engineers_are_ordered some_engineers) as (_ & Hperm & Hsorted & _).
  - unfold some_engineers, engineer_is_numeric. repeat constructor; discriminate.
  - exact (conj Hperm Hsorted).
Defined.
